(** * neurolib: recurrent cells and dataset preparation

    A shallow embedding of [neurolib/encoder/seq_cells.py] (the cells
    [CustomCell], [TwoEncodersCell], [NormalTriLCell]) and of
    [Model.prepare_datasets] from [neurolib/models/models.py], with the
    properties of the specification stated and proved over it.

    Python exceptions are an error type, [try]/[except] is an explicit
    handler, dictionaries are finite maps, and builder objects live in a
    store addressed by reference. *)

From stdpp Require Import base option list gmap strings.
From Stdlib Require Import Lia.

(** ** Exceptions and fallible computations *)

Inductive exn : Type :=
  | TypeError
  | ValueError
  | IndexError
  | AttributeError
  | NotImplementedError
  | KeyError (key : string)
  | WiringError
  | RangeError
  | DuplicateDeclarationError
  | UnresolvedSlotError
  | CycleError
  | OSError.

Inductive result (A : Type) : Type :=
  | Ok (a : A)
  | Raise (e : exn).

Arguments Ok {A} a.
Arguments Raise {A} e.

(** Sequencing stops at the first exception. *)
Global Instance result_ret : MRet result := λ A a, Ok a.
Global Instance result_bind : MBind result := λ A B k r,
  match r with
  | Ok a => k a
  | Raise e => Raise e
  end.

(** [try body except TypeError: handler] *)
Definition try_except_TypeError {A} (body : result A) (handler : result A)
  : result A :=
  match body with
  | Raise TypeError => handler
  | r => r
  end.

(** ** Python values handed to a cell *)

Module Py.

(** What the unrolling driver passes around: [None], a bare tensor, or a
    tuple of values. *)
#[local] Unset Elimination Schemes.
Inductive value : Type :=
  | PyNone
  | Tensor (id : nat)
  | Tuple (items : list value).
#[local] Set Elimination Schemes.

(** An argument of a call: a value, or a dictionary from slot index to
    value. *)
Inductive object : Type :=
  | Val (v : value)
  | SlotMap (m : gmap nat value).

(** [len(v)]: only a sequence has a length. *)
Definition len (v : value) : result nat :=
  match v with
  | Tuple items => Ok (length items)
  | _ => Raise TypeError
  end.

(** [iter(v)]: only a sequence can be iterated. *)
Definition iter (v : value) : result (list value) :=
  match v with
  | Tuple items => Ok items
  | _ => Raise TypeError
  end.

(** [enumerate(xs, start)] once the iterable has been opened. *)
Fixpoint enumerate_from {A} (start : nat) (xs : list A) : list (nat * A) :=
  match xs with
  | [] => []
  | x :: xs' => (start, x) :: enumerate_from (S start) xs'
  end.

Definition enumerate (v : value) (start : nat) : result (list (nat * value)) :=
  items ← iter v ; Ok (enumerate_from start items).

(** [dict(pairs)]: pairs are stored left to right, a later pair wins. *)
Definition dict {A} (pairs : list (nat * A)) : gmap nat A :=
  foldl (λ d kv, <[kv.1 := kv.2]> d) ∅ pairs.

(** [d.update(other)]: the entries of [other] overwrite those of [d]. *)
Definition update {A} (d other : gmap nat A) : gmap nat A := other ∪ d.

(** [a, b = v] *)
Definition unpack2 (v : value) : result (value * value) :=
  items ← iter v ;
  match items with
  | [a; b] => Ok (a, b)
  | _ => Raise ValueError
  end.

(** Number of constructors in a value, used to tell a value from a tuple
    that contains it. *)
Fixpoint size (v : value) : nat :=
  match v with
  | PyNone => 1
  | Tensor _ => 1
  | Tuple items => S (list_sum (map size items))
  end.

(** [l[i:j]], [l[:j]] and [l[i:]] *)
Definition slice {A} (i j : nat) (l : list A) : list A := take (j - i) (drop i l).
Definition slice_to {A} (j : nat) (l : list A) : list A := take j l.
Definition slice_from {A} (i : nat) (l : list A) : list A := drop i l.

End Py.

(** ** The static builder

    [neurolib/builders/static_builder.py] and the node classes are not part
    of the sources at hand; the cells only call into them. *)

Module Builder.

(** A node is known by the name given by the caller, or by one generated
    from the builder's counter. *)
Inductive node_name : Type :=
  | Named (s : string)
  | Auto (k : nat).

Global Instance node_name_eq_dec : EqDecision node_name.
Proof. solve_decision. Defined.

(** The text of a name in the message of a KeyError. *)
Definition repr (nm : node_name) : string :=
  match nm with
  | Named s => s
  | Auto _ => "<generated>"
  end.

Inductive node_class : Type :=
  | NormalInputNode
  | NormalTriLNode
  | DefaultInnerNode.

Record link : Type := Link {
  l_src : node_name;
  l_oslot : nat;
  l_dst : node_name;
  l_islot : nat
}.

(** An insertion-ordered dictionary keyed by node name: [d[k] = v] replaces
    in place or appends. *)
Fixpoint assoc_set {V} (k : node_name) (v : V) (d : list (node_name * V))
  : list (node_name * V) :=
  match d with
  | [] => [(k, v)]
  | (k', v') :: d' =>
      if decide (k' = k) then (k, v) :: d' else (k', v') :: assoc_set k v d'
  end.

Fixpoint assoc_get {V} (k : node_name) (d : list (node_name * V)) : option V :=
  match d with
  | [] => None
  | (k', v') :: d' => if decide (k' = k) then Some v' else assoc_get k d'
  end.

Section builder.

Context {dim directive : Type}.

Record node : Type := Node {
  n_class : node_class;
  n_shape : list dim;
  n_islots : nat;
  n_oslots : nat;
  n_dirs : gmap string directive
}.

(** Modelled from the spec: the Builder of section 3, whose class
    [StaticBuilder] is missing from the sources: a name-to-node mapping
    in insertion order, the directed links, the counter behind generated
    names, and the scope label. [N] is what the builder stores as a
    node. *)
Record builder_of (N : Type) : Type := MkBuilder {
  scope : string;
  nodes : list (node_name * N);
  links : list link;
  counter : nat;
  committed : bool
}.
Global Arguments MkBuilder {N} _ _ _ _ _.
Global Arguments scope {N} _.
Global Arguments nodes {N} _.
Global Arguments links {N} _.
Global Arguments counter {N} _.
Global Arguments committed {N} _.

(** What a builder needs from the things it stores. *)
Class NodeLike (N : Type) : Type := {
  of_node : node → N;
  islots_of : N → nat;
  oslots_of : N → nat
}.

Global Instance node_NodeLike : NodeLike node :=
  {| of_node := id; islots_of := n_islots; oslots_of := n_oslots |}.

(** The number of output slots a node class declares belongs to the node
    classes; it is a parameter. *)
Variable class_oslots : node_class → nat.

Section ops.
Context {N : Type} `{NodeLike N}.

(** Modelled from the spec: [StaticBuilder(scope=...)], a builder
    "created empty". *)
Definition StaticBuilder (sc : string) : builder_of N :=
  MkBuilder sc [] [] 0 false.

Definition register (name : option string) (n : N) (b : builder_of N)
  : node_name * builder_of N :=
  let nm := match name with Some s => Named s | None => Auto (counter b) end in
  (nm, MkBuilder (scope b) (assoc_set nm n (nodes b)) (links b)
                 (S (counter b)) (committed b)).

(** Modelled from the spec: [addInput(shape, node_class, **directives)
    -> node_name] of section 4.1; an input node has no input slot. *)
Definition addInput (shape : list dim) (iclass : node_class)
    (dirs : gmap string directive) (b : builder_of N)
  : node_name * builder_of N :=
  register None
    (of_node (Node iclass shape 0 (class_oslots iclass) dirs)) b.

(** Modelled from the spec: [addInner(shape, num_inputs, node_class,
    **directives) -> node_name] of section 4.1, with the optional
    [name] the cells pass. *)
Definition addInner (shape : list dim) (num_inputs : nat)
    (node_class : node_class) (name : option string)
    (dirs : gmap string directive) (b : builder_of N)
  : node_name * builder_of N :=
  register name
    (of_node (Node node_class shape num_inputs
                   (class_oslots node_class) dirs)) b.

(** [b.nodes[name]] *)
Definition get_node (nm : node_name) (b : builder_of N) : result N :=
  match assoc_get nm (nodes b) with
  | Some n => Ok n
  | None => Raise (KeyError (repr nm))
  end.

Definition islot_occupied (dst : node_name) (islot : nat)
    (ls : list link) : bool :=
  existsb (λ l, bool_decide (l_dst l = dst)
                && bool_decide (l_islot l = islot)) ls.

(** Modelled from the spec: [addDirectedLink(src, dst, oslot=0,
    islot=0)] of section 4.1, "failing with a WiringError if the islot
    is already occupied or the oslot index is out of the node's
    declared range". *)
Definition addDirectedLink (src dst : node_name) (oslot islot : nat)
    (b : builder_of N) : result (builder_of N) :=
  s ← get_node src b ;
  _ ← get_node dst b ;
  if bool_decide (oslots_of s ≤ oslot) then Raise WiringError
  else if islot_occupied dst islot (links b) then Raise WiringError
  else Ok (MkBuilder (scope b) (nodes b)
             (links b ++ [Link src oslot dst islot])
             (counter b) (committed b)).

(** An input slot is resolved by a link, or by a value fed from
    outside the builder ([fed], the aliases of a custom node). *)
Definition islot_resolved (fed : list (node_name * nat))
    (ls : list link) (nm : node_name) (islot : nat) : bool :=
  islot_occupied nm islot ls || bool_decide ((nm, islot) ∈ fed).

Definition all_resolved (fed : list (node_name * nat))
    (b : builder_of N) : bool :=
  forallb (λ e, forallb (islot_resolved fed (links b) e.1)
                        (seq 0 (islots_of e.2)))
          (nodes b).

(** One round of the dependency order: the nodes still waiting for a
    source that has not been built. *)
Definition waiting (ls : list link) (remaining : list node_name)
  : list node_name :=
  List.filter
    (λ nm, existsb (λ l, bool_decide (l_dst l = nm)
                         && bool_decide (l_src l ∈ remaining)) ls)
    remaining.

Fixpoint unbuilt (fuel : nat) (ls : list link)
    (remaining : list node_name) : list node_name :=
  match fuel with
  | 0 => remaining
  | S fuel' => unbuilt fuel' ls (waiting ls remaining)
  end.

Definition acyclic (b : builder_of N) : bool :=
  match unbuilt (length (nodes b)) (links b) (fst <$> nodes b) with
  | [] => true
  | _ => false
  end.

(** Modelled from the spec: [commit()] of section 4.2, as far as the
    graph goes (what each node materializes is the runtime's): a
    second commit is a no-op, a dangling islot is an
    UnresolvedSlotError, a cycle a CycleError. *)
Definition commit (fed : list (node_name * nat)) (b : builder_of N)
  : result (builder_of N) :=
  if committed b then Ok b
  else if negb (all_resolved fed b) then Raise UnresolvedSlotError
  else if negb (acyclic b) then Raise CycleError
  else Ok (MkBuilder (scope b) (nodes b) (links b) (counter b) true).

End ops.

(** Modelled from the spec: the CustomNode of sections 3 and 4.3, whose
    class is missing from the sources: a node that owns an internal
    builder and the alias tables from its external slots to slots of
    internal nodes. *)
Record custom_node : Type := CustomNode {
  c_num_inputs : nat;
  c_num_outputs : nat;
  c_inner : builder_of node;
  c_islots : gmap nat (node_name * nat);
  c_oslots : gmap nat (node_name * nat)
}.

(** What an outer builder stores. *)
Inductive entry : Type :=
  | Plain (n : node)
  | Custom (c : custom_node).

Global Instance entry_NodeLike : NodeLike entry :=
  {| of_node := Plain;
     islots_of e := match e with
                    | Plain n => n_islots n
                    | Custom c => c_num_inputs c
                    end;
     oslots_of e := match e with
                    | Plain n => n_oslots n
                    | Custom c => c_num_outputs c
                    end |}.

(** Modelled from the spec: [createCustomNode(num_inputs, num_outputs,
    name) -> CustomNode] of section 4.3, "a node with an internal
    builder scoped under the custom node's name". *)
Definition createCustomNode (num_inputs num_outputs : nat) (name : string)
    (b : builder_of entry) : node_name * builder_of entry :=
  register (Some name)
    (Custom (CustomNode num_inputs num_outputs (StaticBuilder name) ∅ ∅)) b.

Definition with_inner (c : custom_node) (ib : builder_of node)
  : custom_node :=
  CustomNode (c_num_inputs c) (c_num_outputs c) ib (c_islots c) (c_oslots c).

(** [cust.addInner(shape, num_inputs=...)]: the node goes to the internal
    builder. *)
Definition cust_addInner (shape : list dim) (num_inputs : nat)
    (c : custom_node) : node_name * custom_node :=
  let '(nm, ib) :=
    addInner shape num_inputs DefaultInnerNode None ∅ (c_inner c) in
  (nm, with_inner c ib).

Definition cust_addDirectedLink (src dst : node_name) (oslot islot : nat)
    (c : custom_node) : result custom_node :=
  ib ← addDirectedLink src dst oslot islot (c_inner c) ;
  Ok (with_inner c ib).

(** Modelled from the spec: [declareIslot(islot, innernode_name,
    inode_islot)] of section 4.3: an index outside [0, num_inputs) is a
    RangeError, a second declaration of the same external islot a
    DuplicateDeclarationError. *)
Definition declareIslot (islot : nat) (innernode_name : node_name)
    (inode_islot : nat) (c : custom_node) : result custom_node :=
  if bool_decide (c_num_inputs c ≤ islot) then Raise RangeError
  else match c_islots c !! islot with
       | Some _ => Raise DuplicateDeclarationError
       | None =>
           Ok (CustomNode (c_num_inputs c) (c_num_outputs c) (c_inner c)
                 (<[islot := (innernode_name, inode_islot)]> (c_islots c))
                 (c_oslots c))
       end.

(** Modelled from the spec: [declareOslot(oslot, innernode_name,
    inode_oslot)] of section 4.3: an index outside [0, num_outputs) is a
    RangeError. *)
Definition declareOslot (oslot : nat) (innernode_name : node_name)
    (inode_oslot : nat) (c : custom_node) : result custom_node :=
  if bool_decide (c_num_outputs c ≤ oslot) then Raise RangeError
  else Ok (CustomNode (c_num_inputs c) (c_num_outputs c) (c_inner c)
             (c_islots c)
             (<[oslot := (innernode_name, inode_oslot)]> (c_oslots c))).

(** Modelled from the spec: [commit()] on a CustomNode "triggers a commit
    of the internal builder"; the aliased islots are fed from outside. *)
Definition cust_commit (c : custom_node) : result custom_node :=
  ib ← commit (snd <$> map_to_list (c_islots c)) (c_inner c) ;
  Ok (with_inner c ib).

End builder.

End Builder.

(** ** seq_cells.py *)

Module SeqCells.
Import Py Builder.

(** *** The step function of the cells *)

Section call.

(** The cell's encoder is a node of the private builder; what the node
    computes when called belongs to the node classes, so it is a
    parameter here. A [CustomNode] is called with a slot map, a
    [NormalTriLNode] with the two arguments of the cell. *)
Variable custom_encoder : gmap nat value → result value.
Variable tril_encoder : object → object → result value.

(** Lines 140-144 of [TwoEncodersCell.__call__]. *)
Definition normalize_state (state : value) : result (nat * value) :=
  try_except_TypeError
    (num_init_states ← len state ; Ok (num_init_states, state))
    (Ok (1, Tuple [state])).

(** Lines 147-153: the slot map handed to the encoder. *)
Definition islot_states (inputs state : value) : result (gmap nat value) :=
  '(num_init_states, state) ← normalize_state state ;
  pairs ← enumerate state 0 ;
  let islot_states := dict pairs in
  try_except_TypeError
    (pairs' ← enumerate inputs num_init_states ;
     Ok (update islot_states (dict pairs')))
    (Ok (update islot_states {[num_init_states := inputs]})).

(** [TwoEncodersCell.__call__(self, inputs, state)] *)
Definition TwoEncodersCell_call (inputs state : value)
  : result (value * value) :=
  inputs ← islot_states inputs state ;
  out ← custom_encoder inputs ;
  '(output, _) ← unpack2 out ;
  Ok (output, output).

(** [NormalTriLCell.__call__(self, inputs=None, islot_to_itensor=None)] *)
Definition NormalTriLCell_call (inputs islot_to_itensor : object)
  : result (value * value) :=
  output ← tril_encoder inputs islot_to_itensor ;
  Ok (output, output).

End call.

(** A value that is not a sequence, and the sequence a call argument
    stands for: itself if it is one, else the one-element sequence holding
    it. *)
Definition bare (v : value) : Prop :=
  match v with
  | Tuple _ => False
  | _ => True
  end.

Definition as_sequence (v : value) : list value :=
  match v with
  | Tuple items => items
  | _ => [v]
  end.

(** *** The classes *)

Inductive cell_class : Type :=
  | CustomCell
  | TwoEncodersCell
  | NormalTriLCell.

Global Instance cell_class_eq_dec : EqDecision cell_class.
Proof. solve_decision. Defined.

(** Attribute lookup follows the method resolution order; the bases
    [ANode] and [RNNCell] come after [CustomCell]. *)
Definition mro (k : cell_class) : list cell_class :=
  match k with
  | CustomCell => [CustomCell]
  | _ => [k; CustomCell]
  end.

Fixpoint first_defined {T} (own : cell_class → option T)
    (ks : list cell_class) : option T :=
  match ks with
  | [] => None
  | k :: ks' =>
      match own k with
      | Some m => Some m
      | None => first_defined own ks'
      end
  end.


Abbreviation store dim directive := (list (builder_of (@entry dim directive))).

Section cells.

Context {dim directive : Type}.
Variable class_oslots : node_class → nat.

(** Builders are objects: the store holds them, a reference is an index
    into the store, and a new object gets the next index. *)
Definition M (A : Type) : Type := store dim directive → result (A * store dim directive).

Global Instance M_ret : MRet M := λ A a h, Ok (a, h).
Global Instance M_bind : MBind M := λ A B k m h,
  match m h with
  | Ok (a, h') => k a h'
  | Raise e => Raise e
  end.

Definition raise {A} (e : exn) : M A := λ _, Raise e.
Definition lift {A} (r : result A) : M A := λ h,
  match r with
  | Ok a => Ok (a, h)
  | Raise e => Raise e
  end.

Definition alloc (b : builder_of entry) : M nat :=
  λ h, Ok (length h, h ++ [b]).

(** A method call [ref.f(...)] on a builder; [None] has no methods. *)
Definition on_builder {A} (ref : option nat)
    (f : builder_of entry → result (A * builder_of entry)) : M A := λ h,
  match ref with
  | None => Raise AttributeError
  | Some l =>
      match h !! l with
      | None => Raise AttributeError
      | Some b =>
          match f b with
          | Ok (a, b') => Ok (a, <[l := b']> h)
          | Raise e => Raise e
          end
      end
  end.

(** A method call on the custom node [nm] of the builder at [l]. *)
Definition on_custom {A} (l : nat) (nm : node_name)
    (f : custom_node → result (A * custom_node)) : M A :=
  on_builder (Some l) (λ b,
    e ← get_node nm b ;
    match e with
    | Plain _ => Raise AttributeError
    | Custom c =>
        '(a, c') ← f c ;
        Ok (a, MkBuilder (scope b) (assoc_set nm (Custom c') (nodes b))
                 (links b) (counter b) (committed b))
    end).

Record cell : Type := Cell {
  cls : cell_class;
  ext_builder : option nat;
  builder : nat;
  num_expected_inputs : nat;
  num_expected_outputs : nat;
  state_dims : option (list dim);
  cell_name : string;
  directives : gmap string directive;
  encoder : option node_name;
  init_states : option (list node_name)
}.

(** The assignments of [TwoEncodersCell.__init__] before the encoder is
    declared: [state_dims], [cname], [init_states = None] and the
    directives. *)
Definition set_subclass_attrs (self : cell) (dims : list dim)
    (name : string) (dirs : gmap string directive) : cell :=
  Cell (cls self) (ext_builder self) (builder self)
       (num_expected_inputs self) (num_expected_outputs self)
       (Some dims) name dirs (encoder self) None.

Definition set_encoder (self : cell) (enc : node_name) : cell :=
  Cell (cls self) (ext_builder self) (builder self)
       (num_expected_inputs self) (num_expected_outputs self)
       (state_dims self) (cell_name self) (directives self)
       (Some enc) (init_states self).

Definition set_init_states (self : cell) (inits : list node_name) : cell :=
  Cell (cls self) (ext_builder self) (builder self)
       (num_expected_inputs self) (num_expected_outputs self)
       (state_dims self) (cell_name self) (directives self)
       (encoder self) (Some inits).

(** The three assignments of [NormalTriLCell.__init__], one by one. *)
Definition set_state_dims (self : cell) (dims : list dim) : cell :=
  Cell (cls self) (ext_builder self) (builder self)
       (num_expected_inputs self) (num_expected_outputs self)
       (Some dims) (cell_name self) (directives self)
       (encoder self) (init_states self).

Definition set_directives (self : cell) (dirs : gmap string directive)
  : cell :=
  Cell (cls self) (ext_builder self) (builder self)
       (num_expected_inputs self) (num_expected_outputs self)
       (state_dims self) (cell_name self) dirs
       (encoder self) (init_states self).

(** [self.name = name]. No class of this file defines [name]: the
    lookup reaches the base [tf.nn.rnn_cell.RNNCell], a layer, where
    [name] is a property without a setter. The assignment raises
    AttributeError and the instance stays as it was. The two-encoder cell
    keeps its name in [cname], which no base defines. *)
Definition set_name (self : cell) (name : string) : result cell :=
  Raise AttributeError.

(** [self.state_dims]: set by the subclasses only. *)
Definition get_state_dims (self : cell) : result (list dim) :=
  match state_dims self with
  | Some d => Ok d
  | None => Raise AttributeError
  end.

(** *** CustomCell *)

(** [CustomCell.__init__(self, num_inputs, num_outputs, builder)], run
    for an instance of class [k]. *)
Definition CustomCell_init (k : cell_class) (num_inputs num_outputs : nat)
    (builder : option nat) : M cell :=
  b ← alloc (StaticBuilder "Cell") ;
  mret (Cell k builder b num_inputs num_outputs None "" ∅ None None).

(** *** What each class body defines *)

(** [NormalTriLCell.get_init_states(self, ext_builder)]: the method
    [ext_builder.addInput] is looked up first, then the arguments are
    evaluated. The call passes [iclass=NormalInputNode] together with
    [**self.directives]: a directive named [iclass] gives the keyword
    twice, a TypeError raised before [addInput] runs. *)
Definition NormalTriLCell_get_init_states (self : cell)
    (ext_builder : option nat) : M (list node_name) :=
  init ← on_builder ext_builder (λ b,
    dims ← get_state_dims self ;
    if decide (is_Some (directives self !! "iclass")) then Raise TypeError
    else Ok (addInput class_oslots dims NormalInputNode (directives self) b)) ;
  mret [init].

Definition own_state_size (k : cell_class)
  : option (cell → result (list dim)) :=
  match k with
  | CustomCell => Some (λ _, Raise NotImplementedError)
  | TwoEncodersCell => Some get_state_dims
  | NormalTriLCell => Some get_state_dims
  end.

Definition own_output_size (k : cell_class)
  : option (cell → result (list dim)) :=
  match k with
  | CustomCell => Some (λ _, Raise NotImplementedError)
  | TwoEncodersCell => Some get_state_dims
  | NormalTriLCell => Some get_state_dims
  end.

Definition own_get_init_states (k : cell_class)
  : option (cell → option nat → M (list node_name)) :=
  match k with
  | CustomCell => Some (λ _ _, raise NotImplementedError)
  | TwoEncodersCell => None
  | NormalTriLCell => Some NormalTriLCell_get_init_states
  end.

(** [self.state_size], [self.output_size], [self.get_init_states(b)] *)
Definition state_size (self : cell) : result (list dim) :=
  match first_defined own_state_size (mro (cls self)) with
  | Some m => m self
  | None => Raise AttributeError
  end.

Definition output_size (self : cell) : result (list dim) :=
  match first_defined own_output_size (mro (cls self)) with
  | Some m => m self
  | None => Raise AttributeError
  end.

Definition get_init_states (self : cell) (ext_builder : option nat)
  : M (list node_name) :=
  match first_defined own_get_init_states (mro (cls self)) with
  | Some m => m self ext_builder
  | None => raise AttributeError
  end.

(** *** TwoEncodersCell *)

Definition update_custom (l : nat) (nm : node_name)
    (f : custom_node → result custom_node) : M unit :=
  on_custom l nm (λ c, c' ← f c ; Ok (tt, c')).

(** [TwoEncodersCell.declare_cell_encoder(self)] *)
Definition TwoEncodersCell_declare_cell_encoder (self : cell)
  : M node_name :=
  let builder := builder self in
  cust ← on_builder (Some builder) (λ b,
    Ok (createCustomNode 3 2 "Custom" b)) ;
  sz ← lift (state_size self) ;
  cust_in1 ← on_custom builder cust (λ c,
    Ok (cust_addInner class_oslots (slice 0 1 sz) 2 c)) ;
  sz ← lift (state_size self) ;
  cust_in2 ← on_custom builder cust (λ c,
    Ok (cust_addInner class_oslots (slice 1 2 sz) 2 c)) ;
  _ ← update_custom builder cust (cust_addDirectedLink cust_in1 cust_in2 0 1) ;
  _ ← update_custom builder cust (declareIslot 0 cust_in1 0) ;
  _ ← update_custom builder cust (declareIslot 1 cust_in2 0) ;
  _ ← update_custom builder cust (declareIslot 2 cust_in1 1) ;
  _ ← update_custom builder cust (declareOslot 0 cust_in1 0) ;
  _ ← update_custom builder cust (declareOslot 1 cust_in2 0) ;
  _ ← update_custom builder cust cust_commit ;
  mret cust.

(** [TwoEncodersCell._get_init_states(self)] *)
Definition TwoEncodersCell_get_init_states (self : cell)
  : M (list node_name) :=
  dims ← lift (get_state_dims self) ;
  init1 ← on_builder (ext_builder self) (λ b,
    Ok (addInput class_oslots (slice_to 1 dims) NormalInputNode ∅ b)) ;
  dims ← lift (get_state_dims self) ;
  init2 ← on_builder (ext_builder self) (λ b,
    Ok (addInput class_oslots (slice_from 1 dims) NormalInputNode ∅ b)) ;
  mret [init1; init2].

(** [TwoEncodersCell.__init__(self, state_sizes, builder, num_inputs=3,
    num_outputs=2, name=None, **dirs)] *)
Definition TwoEncodersCell_init (state_sizes : list dim)
    (builder : option nat) (num_inputs num_outputs : nat)
    (name : option string) (dirs : gmap string directive) : M cell :=
  self ← CustomCell_init TwoEncodersCell num_inputs num_outputs builder ;
  let self :=
    set_subclass_attrs self state_sizes (default "TwoEncCell" name) dirs in
  enc ← TwoEncodersCell_declare_cell_encoder self ;
  let self := set_encoder self enc in
  inits ← TwoEncodersCell_get_init_states self ;
  mret (set_init_states self inits).

(** *** NormalTriLCell *)

(** [NormalTriLCell.declare_cell_encoder(self)] *)
Definition NormalTriLCell_declare_cell_encoder (self : cell)
  : M node_name :=
  dims ← lift (get_state_dims self) ;
  enc_name ← on_builder (Some (builder self)) (λ b,
    Ok (addInner class_oslots dims 2 NormalTriLNode
          (Some "NormalTriLCell") ∅ b)) ;
  _ ← on_builder (Some (builder self)) (λ b,
    n ← get_node enc_name b ; Ok (n, b)) ;
  mret enc_name.

(** [NormalTriLCell.__init__(self, state_sizes, num_inputs=2, name=None,
    **dirs)] *)
Definition NormalTriLCell_init (state_sizes : list dim) (num_inputs : nat)
    (name : option string) (dirs : gmap string directive) : M cell :=
  self ← CustomCell_init NormalTriLCell num_inputs 1 None ;
  let self := set_state_dims self state_sizes in
  self ← lift (set_name self (default "NormalTriLCell" name)) ;
  let self := set_directives self dirs in
  enc ← NormalTriLCell_declare_cell_encoder self ;
  mret (set_encoder self enc).

(** *** Constructing a concrete cell *)

Inductive construction : Type :=
  | NewTwoEncodersCell (state_sizes : list dim) (builder : option nat)
      (num_inputs num_outputs : nat) (name : option string)
      (dirs : gmap string directive)
  | NewNormalTriLCell (state_sizes : list dim) (num_inputs : nat)
      (name : option string) (dirs : gmap string directive).

Definition construct (c : construction) : M cell :=
  match c with
  | NewTwoEncodersCell state_sizes builder num_inputs num_outputs name dirs =>
      TwoEncodersCell_init state_sizes builder num_inputs num_outputs name dirs
  | NewNormalTriLCell state_sizes num_inputs name dirs =>
      NormalTriLCell_init state_sizes num_inputs name dirs
  end.

(** The registration of initial states each concrete class has: the
    private [_get_init_states] of the two-encoder cell works on the
    builder kept from construction, [get_init_states] of the TriL cell on
    the builder of the caller. *)
Definition register_init_states (self : cell) (caller_builder : option nat)
  : M (list node_name) :=
  match cls self with
  | TwoEncodersCell => TwoEncodersCell_get_init_states self
  | _ => get_init_states self caller_builder
  end.

(** The builder a registration works on: the one kept from construction
    for the two-encoder cell, the argument of the call for the others. *)
Definition registration_target (self : cell) (caller_builder : option nat)
  : option nat :=
  match cls self with
  | TwoEncodersCell => ext_builder self
  | _ => caller_builder
  end.

(** The one-step graph of the two-encoder cell, written out: the custom
    node with its two inner nodes, the link between them and the alias
    tables. *)
Definition encoder_graph (sz : list dim) : builder_of (@entry dim directive) :=
  MkBuilder "Cell"
    [(Named "Custom",
      Custom (CustomNode 3 2
        (MkBuilder "Custom"
           [(Auto 0, Node DefaultInnerNode (slice 0 1 sz) 2
                          (class_oslots DefaultInnerNode) ∅);
            (Auto 1, Node DefaultInnerNode (slice 1 2 sz) 2
                          (class_oslots DefaultInnerNode) ∅)]
           [Link (Auto 0) 0 (Auto 1) 1] 2 true)
        (<[2 := (Auto 0, 1)]> (<[1 := (Auto 1, 0)]> (<[0 := (Auto 0, 0)]> ∅)))
        (<[1 := (Auto 1, 0)]> (<[0 := (Auto 0, 0)]> ∅))))]
    [] 1 false.

(** What [NormalTriLCell.declare_cell_encoder] makes of an empty private
    builder, written out. *)
Definition tril_graph (dims : list dim) : builder_of (@entry dim directive) :=
  MkBuilder "Cell"
    [(Named "NormalTriLCell",
      Plain (Node NormalTriLNode dims 2 (class_oslots NormalTriLNode) ∅))]
    [] 1 false.

(** The outcome of a call on the only node of the newest builder of the
    store, a custom node, written back in place. *)
Definition put_custom {A} (h : store dim directive) (sc : string)
    (nm : node_name) (ls : list link) (k : nat) (cm : bool)
    (r : result (A * @custom_node dim directive))
  : result (A * store dim directive) :=
  match r with
  | Ok (a, cn') => Ok (a, h ++ [MkBuilder sc [(nm, Custom cn')] ls k cm])
  | Raise e => Raise e
  end.

(** A builder after the two registrations of [_get_init_states], and
    after the one of [NormalTriLCell.get_init_states]. *)
Definition with_two_inits (dims : list dim)
    (b : builder_of (@entry dim directive)) : builder_of entry :=
  (addInput class_oslots (slice_from 1 dims) NormalInputNode ∅
     (addInput class_oslots (slice_to 1 dims) NormalInputNode ∅ b).2).2.

Definition with_one_init (dims : list dim) (dirs : gmap string directive)
    (b : builder_of (@entry dim directive)) : builder_of entry :=
  (addInput class_oslots dims NormalInputNode dirs b).2.

(** What a construction is given and what it is to build. *)
Definition external_of (a : construction) : option nat :=
  match a with
  | NewTwoEncodersCell _ builder _ _ _ _ => builder
  | NewNormalTriLCell _ _ _ _ => None
  end.

Definition sizes_of (a : construction) : list dim :=
  match a with
  | NewTwoEncodersCell state_sizes _ _ _ _ _ => state_sizes
  | NewNormalTriLCell state_sizes _ _ _ => state_sizes
  end.

Definition graph_of (a : construction) : builder_of (@entry dim directive) :=
  match a with
  | NewTwoEncodersCell state_sizes _ _ _ _ _ => encoder_graph state_sizes
  | NewNormalTriLCell state_sizes _ _ _ => tril_graph state_sizes
  end.

(** A reference to a builder that exists in the store; [None] refers to
    nothing. *)
Definition allocated (ref : option nat) (h : store dim directive) : Prop :=
  match ref with
  | Some l => l < length h
  | None => True
  end.

(** The input node that holds an initial state. *)
Definition init_node (shape : list dim) (dirs : gmap string directive)
  : @entry dim directive :=
  Plain (Node NormalInputNode shape 0 (class_oslots NormalInputNode) dirs).

End cells.

End SeqCells.

(** ** models.py, [Model.prepare_datasets] *)

Module Models.
Import Py.

(** [s.split(sep)] for a separator of one character. *)
Fixpoint split (sep : Ascii.ascii) (s : string) : list string :=
  match s with
  | EmptyString => [EmptyString]
  | String c s' =>
      if decide (c = sep) then EmptyString :: split sep s'
      else match split sep s' with
           | w :: ws => String c w :: ws
           | [] => [String c EmptyString]
           end
  end.

(** [sep.join(ws)] *)
Fixpoint join (sep : string) (ws : list string) : string :=
  match ws with
  | [] => ""
  | [w] => w
  | w :: ws' => w +:+ sep +:+ join sep ws'
  end.

(** [l[i]] *)
Definition index {A} (l : list A) (i : nat) : result A :=
  match l !! i with
  | Some x => Ok x
  | None => Raise IndexError
  end.

(** The underscore. *)
Definition underscore : Ascii.ascii := Ascii.ascii_of_nat 95.

(** The substring before the first underscore, the "prefix" of a key in
    the words of the specification. *)
Fixpoint prefix_of (key : string) : string :=
  match key with
  | EmptyString => EmptyString
  | String c key' =>
      if decide (c = underscore) then EmptyString else String c (prefix_of key')
  end.

Fixpoint has_underscore (s : string) : bool :=
  match s with
  | EmptyString => false
  | String c s' => bool_decide (c = underscore) || has_underscore s'
  end.

(** The part of a key after its first underscore, as the loop computes
    it. *)
Definition inode_of (key : string) : string :=
  join "_" (slice_from 1 (split underscore key)).

Definition allowed (d_set : string) : Prop :=
  d_set = "train" ∨ d_set = "valid" ∨ d_set = "test".

Section prepare.

Context {V : Type}.

(** The three dictionaries filled by the loop. *)
Record datasets : Type := Datasets {
  train_dataset : gmap string V;
  valid_dataset : gmap string V;
  test_dataset : gmap string V
}.

Definition feed_name (scope inode : string) : string :=
  scope +:+ "/" +:+ inode +:+ "_main:0".

(** The body of the loop of [prepare_datasets] for one key. The payload
    of the KeyError is the key quoted in its message. *)
Definition place (scope : string) (acc : datasets) (key : string) (v : V)
  : result datasets :=
  d_set ← index (split underscore key) 0 ;
  let inode := join "_" (slice_from 1 (split underscore key)) in
  if decide (d_set = "train") then
    Ok (Datasets (<[feed_name scope inode := v]> (train_dataset acc))
                 (valid_dataset acc) (test_dataset acc))
  else if decide (d_set = "valid") then
    Ok (Datasets (train_dataset acc)
                 (<[feed_name scope inode := v]> (valid_dataset acc))
                 (test_dataset acc))
  else if decide (d_set = "test") then
    Ok (Datasets (train_dataset acc) (valid_dataset acc)
                 (<[feed_name scope inode := v]> (test_dataset acc)))
  else Raise (KeyError key).

(** [for key in dataset: ...] over the dictionary in insertion order. *)
Fixpoint fill (scope : string) (acc : datasets) (dataset : list (string * V))
  : result datasets :=
  match dataset with
  | [] => Ok acc
  | (key, v) :: rest => acc' ← place scope acc key v ; fill scope acc' rest
  end.

(** [Model.prepare_datasets(self, dataset)], for a model whose
    [main_scope] is [scope]; the dataset is a dictionary with string
    keys, given by its items in insertion order. *)
Definition prepare_datasets (scope : string) (dataset : list (string * V))
  : result (gmap string (gmap string V)) :=
  acc ← fill scope (Datasets ∅ ∅ ∅) dataset ;
  Ok (<["test" := test_dataset acc]>
        (<["valid" := valid_dataset acc]>
           (<["train" := train_dataset acc]> ∅))).

(** The dictionary the loop fills for a prefix. *)
Definition dataset_for (d_set : string) (acc : datasets)
  : option (gmap string V) :=
  if decide (d_set = "train") then Some (train_dataset acc)
  else if decide (d_set = "valid") then Some (valid_dataset acc)
  else if decide (d_set = "test") then Some (test_dataset acc)
  else None.

(** What the loop has stored for a prefix under a feed name. *)
Definition stored (d_set feed : string) (acc : datasets) : option V :=
  d ← dataset_for d_set acc ; d !! feed.

End prepare.

(** *** The other methods of [Model] *)

(** [s.startswith(prefix)] *)
Fixpoint startswith (s prefix : string) : bool :=
  match prefix, s with
  | EmptyString, _ => true
  | String c prefix', String d s' =>
      bool_decide (c = d) && startswith s' prefix'
  | String _ _, EmptyString => false
  end.

(** [l[-1]] *)
Definition last_item {A} (l : list A) : result A :=
  match last l with
  | Some x => Ok x
  | None => Raise IndexError
  end.

(** [s[:n]] and [s[:-n]] *)
Fixpoint str_take (n : nat) (s : string) : string :=
  match n, s with
  | S n', String c s' => String c (str_take n' s')
  | _, _ => EmptyString
  end.

Definition drop_end (n : nat) (s : string) : string :=
  str_take (String.length s - n) s.

(** The dot and the dash. *)
Definition dot : Ascii.ascii := Ascii.ascii_of_nat 46.
Definition dash : Ascii.ascii := Ascii.ascii_of_nat 45.

(** A file name whose part after the last dot is [meta]; a name without
    a dot is its own last part. *)
Definition is_meta (file : string) : Prop :=
  last (split dot file) = Some "meta".

Global Instance is_meta_dec file : Decision (is_meta file).
Proof. unfold is_meta. apply _. Defined.

(** [[f(x) for x in l]], stopping at the first exception. *)
Fixpoint for_each {A B} (f : A → result B) (l : list A) : result (list B) :=
  match l with
  | [] => Ok []
  | x :: l' => y ← f x ; ys ← for_each f l' ; Ok (y :: ys)
  end.

Section feeds.

Context {V : Type}.

(** [Model.prepare_dataset(self, dataset)], for a model whose [main_scope]
    is [scope]. *)
Definition prepare_dataset (scope : string) (dataset : list (string * V))
  : gmap string V :=
  foldl (λ dset kv, <[scope +:+ "/" +:+ kv.1 +:+ "_main:0" := kv.2]> dset)
        ∅ dataset.

(** [Model.extract_dirs(self, prefix)], for a model whose [directives] are
    given by their items in insertion order. *)
Definition extract_dirs (directives : list (string * V)) (prefix : string)
  : gmap string V :=
  foldl (λ d kv,
           if startswith kv.1 prefix
           then <[join "_" (slice_from 1 (split underscore kv.1)) := kv.2]> d
           else d)
        ∅ directives.

(** The entries of a dataset that go to the split [d_set], under the part
    of their key after the first underscore. *)
Definition entries_of (d_set : string) (dataset : list (string * V))
  : list (string * V) :=
  omap (λ kv, if decide (prefix_of kv.1 = d_set)
              then Some (inode_of kv.1, kv.2) else None)
       dataset.

End feeds.

Section eval.

Context {V Op Out : Type}.

(** [sess.run(opnames, feed_dict=fd)] belongs to the runtime. *)
Variable run : list Op → gmap string V → result Out.

(** [Model.eval(self, names, dataset, key=None)]; [names] is a string or a
    list of strings, [ops_names] the dictionary [self.ops_names]. *)
Definition eval (ops_names : gmap string Op) (scope : string)
    (names : string + list string) (dataset : list (string * V))
    (key : option string) : result Out :=
  let names := match names with inl name => [name] | inr l => l end in
  opnames ← for_each (λ name, match ops_names !! name with
                               | Some o => Ok o
                               | None => Raise (KeyError name)
                               end) names ;
  fd ← match key with
       | None => Ok (prepare_dataset scope dataset)
       | Some k =>
           dataset_dict ← prepare_datasets scope dataset ;
           match dataset_dict !! k with
           | Some d => Ok d
           | None => Raise (KeyError k)
           end
       end ;
  run opnames fd.

End eval.

Section metafile.

(** The builtin [int] on a string belongs to Python. *)
Variable int : string → result Z.

(** [int(f.split('-')[-1])] *)
Definition step_of (f : string) : result Z :=
  seg ← last_item (split dash f) ; int seg.

(** The scan of [max]: [best] is replaced by a later item only if the key
    of that item is strictly larger. *)
Fixpoint max_from (best : string * Z) (rest : list (string * Z)) : string :=
  match rest with
  | [] => best.1
  | x :: rest' =>
      if decide (best.2 < x.2)%Z then max_from x rest' else max_from best rest'
  end.

(** [max(items, key=key)] *)
Definition max_by_key (key : string → result Z) (items : list string)
  : result string :=
  keyed ← for_each (λ f, k ← key f ; Ok (f, k)) items ;
  match keyed with
  | [] => Raise ValueError
  | best :: rest => Ok (max_from best rest)
  end.

(** [[file[:-5] for file in listing if 'meta' == file.split('.')[-1]]] *)
Fixpoint meta_prefixes (listing : list string) : result (list string) :=
  match listing with
  | [] => Ok []
  | file :: rest =>
      seg ← last_item (split dot file) ;
      ps ← meta_prefixes rest ;
      Ok (if decide ("meta" = seg) then drop_end 5 file :: ps else ps)
  end.

(** [Model.get_latest_metafile_in_rslt_dir(rslt_dir)], on the listing
    [os.listdir(rslt_dir)]. *)
Definition get_latest_metafile_in_rslt_dir (listing : list string)
  : result string :=
  prefixes ← meta_prefixes listing ;
  latest ← max_by_key step_of prefixes ;
  Ok (latest +:+ ".meta").

(** The whole method, from the directory: [os.listdir(rslt_dir)] comes
    first and raises when the directory cannot be listed (an OSError for
    a missing or unreadable directory); [listdir] is that call.
    [get_latest_metafile_in_rslt_dir] above is what the method does with
    the names once they are listed. *)
Variable listdir : string → result (list string).

(** [Model.get_latest_metafile_in_rslt_dir(rslt_dir)] *)
Definition get_latest_metafile_in (rslt_dir : string) : result string :=
  listing ← listdir rslt_dir ;
  get_latest_metafile_in_rslt_dir listing.

End metafile.

Section batches.

(** A row of an array; an array is the list of its rows. *)
Context {R : Type}.

(** [np.random.shuffle(l_inds)] belongs to numpy. *)
Variable shuffled : list nat → list nat.

(** How a generator ends: exhausted, or with an exception. *)
Inductive stop : Type :=
  | StopIteration
  | Raised (e : exn)
  | RaisedZeroDivisionError.

(** [value[inds]] for an array [value] and an array of indices. *)
Definition rows_at (value : list R) (inds : list nat) : result (list R) :=
  for_each (λ i, index value i) inds.

(** [{key : value[l_inds[idx:idx+batch_size]] for key, value in
    dataset.items()}] *)
Definition batch_at (dataset : list (string * list R)) (l_inds : list nat)
    (batch_size idx : nat) : result (list (string * list R)) :=
  for_each (λ kv, rows ← rows_at kv.2 (slice idx (idx + batch_size) l_inds) ;
                  Ok (kv.1, rows))
           dataset.

(** The loop over [range(...)]: the batches yielded, then how it ends. *)
Fixpoint yield_batches (dataset : list (string * list R)) (l_inds : list nat)
    (batch_size : nat) (idxs : list nat)
  : list (list (string * list R)) * stop :=
  match idxs with
  | [] => ([], StopIteration)
  | idx :: idxs' =>
      match batch_at dataset l_inds batch_size idx with
      | Raise e => ([], Raised e)
      | Ok b =>
          let '(bs, st) := yield_batches dataset l_inds batch_size idxs' in
          (b :: bs, st)
      end
  end.

(** [Model.batch_iterator_from_dataset(self, dataset, shuffle=True)], for a
    model whose [batch_size] is [batch_size] ([None] when it is Python's
    None); the generator is given by what it yields and how it ends. *)
Definition batch_iterator_from_dataset (batch_size : option nat)
    (dataset : list (string * list R)) (shuffle : bool)
  : list (list (string * list R)) * stop :=
  match dataset with
  | [] => ([], Raised IndexError)
  | (_, first) :: _ =>
      let nsamps := length first in
      let l_inds := seq 0 nsamps in
      let l_inds := if shuffle then shuffled l_inds else l_inds in
      match batch_size with
      | None => ([], Raised TypeError)
      | Some 0 => ([], RaisedZeroDivisionError)
      | Some bs => yield_batches dataset l_inds bs (seq 0 (nsamps / bs))
      end
  end.

End batches.

End Models.

(** ** Sample inputs *)

Module Samples.
Import Py Builder SeqCells Models.

(** A node that accepts one-element sequences only and returns the
    element of the first. *)
Definition sequences_only (inputs islot_to_itensor : object) : result value :=
  match inputs, islot_to_itensor with
  | Val (Tuple [x]), Val (Tuple [_]) => Ok x
  | _, _ => Raise TypeError
  end.

(** An encoder with two outputs. *)
Definition two_outputs (_ : gmap nat value) : result value :=
  Ok (Tuple [Tensor 7; Tensor 8]).

(** Every node class declares one output slot. *)
Definition one_oslot (_ : node_class) : nat := 1.

(** A store holding the builder of a model, at reference 0. *)
Definition main_store : store nat nat := [StaticBuilder "Main"].

(** The same store once a two-encoder cell has built its private graph at
    reference 1, and that cell before its initial states are registered. *)
Definition cell_store : store nat nat :=
  main_store ++ [encoder_graph one_oslot [3; 4]].

Definition two_cell : @cell nat nat :=
  Cell TwoEncodersCell (Some 0) 1 3 2 (Some [3; 4]) "TwoEncCell" ∅
       (Some (Named "Custom")) None.

(** The two-encoder cell with sizes 3 and 4 as its constructor returns
    it, with the store it leaves. *)
Definition built_cell : @cell nat nat :=
  Cell TwoEncodersCell (Some 0) 1 3 2 (Some [3; 4]) "TwoEncCell" ∅
       (Some (Named "Custom")) (Some [Auto 0; Auto 1]).

Definition built_store : store nat nat :=
  <[0 := with_two_inits one_oslot [3; 4] (StaticBuilder "Main")]> cell_store.

(** A second two-encoder cell constructed after it on the same external
    builder, and one constructed on the private builder of the first
    cell. *)
Definition second_cell : @cell nat nat :=
  Cell TwoEncodersCell (Some 0) 2 3 2 (Some [3; 4]) "TwoEncCell" ∅
       (Some (Named "Custom")) (Some [Auto 2; Auto 3]).

Definition second_store : store nat nat :=
  <[0 := with_two_inits one_oslot [3; 4]
           (with_two_inits one_oslot [3; 4] (StaticBuilder "Main"))]>
    (built_store ++ [encoder_graph one_oslot [3; 4]]).

Definition nested_cell : @cell nat nat :=
  Cell TwoEncodersCell (Some 1) 2 3 2 (Some [3; 4]) "TwoEncCell" ∅
       (Some (Named "Custom")) (Some [Auto 1; Auto 2]).

Definition nested_store : store nat nat :=
  <[1 := with_two_inits one_oslot [3; 4] (encoder_graph one_oslot [3; 4])]>
    (built_store ++ [encoder_graph one_oslot [3; 4]]).

(** An instance of the TriL class with its attributes set and its private
    graph declared at reference 2; one with a directive named [iclass]. *)
Definition tril_cell : @cell nat nat :=
  Cell NormalTriLCell None 2 2 1 (Some [5]) "" ∅
       (Some (Named "NormalTriLCell")) None.

Definition tril_store : store nat nat :=
  built_store ++ [tril_graph one_oslot [5]].

Definition tril_cell_iclass : @cell nat nat :=
  Cell NormalTriLCell None 2 2 1 (Some [5]) "" {["iclass" := 0]}
       (Some (Named "NormalTriLCell")) None.

(** A node that reads the value at islot 0 of the slot map it is handed,
    and accepts nothing but a slot map. *)
Definition reads_islot_0 (inputs islot_to_itensor : object) : result value :=
  match islot_to_itensor with
  | SlotMap m =>
      match m !! 0 with
      | Some v => Ok v
      | None => Raise (KeyError "0")
      end
  | Val _ => Raise TypeError
  end.

(** An instance of the abstract base class. *)
Definition base_cell : @cell nat nat :=
  Cell CustomCell None 1 2 1 None "" ∅ None None.

(** A reading of decimal digits, standing for [int] on the names of
    checkpoint files. *)
Fixpoint digits_value (acc : Z) (s : string) : option Z :=
  match s with
  | EmptyString => Some acc
  | String c s' =>
      let n := Ascii.nat_of_ascii c in
      if bool_decide (48 ≤ n ≤ 57)
      then digits_value (10 * acc + Z.of_nat (n - 48)) s'
      else None
  end.

Definition digits_int (s : string) : result Z :=
  match s with
  | EmptyString => Raise ValueError
  | _ => match digits_value 0 s with
         | Some z => Ok z
         | None => Raise ValueError
         end
  end.

(** A result directory, a dataset as the training test builds it, its
    splits, and two arrays of seven samples. *)
Definition result_dir : list string :=
  ["checkpoint"; "ckpt-10.meta"; "ckpt-200.meta"; "ckpt-200.index";
   "ckpt-30.meta"].

Definition lorenz_dataset : list (string * nat) :=
  [("train_Observation", 1); ("valid_Observation", 2)].

Definition lorenz_splits : gmap string (gmap string nat) :=
  <["test" := ∅]>
    (<["valid" := {["VIND/Observation_main:0" := 2]}]>
       (<["train" := {["VIND/Observation_main:0" := 1]}]> ∅)).

Definition seven_samples : list (string * list nat) :=
  [("x", [10; 11; 12; 13; 14; 15; 16]); ("y", [20; 21; 22; 23; 24; 25; 26])].

(** A runtime that answers with the ops and the feed it was given. *)
Definition echo_run (opnames : list nat) (fd : gmap string nat)
  : result (list nat * gmap string nat) :=
  Ok (opnames, fd).

End Samples.

Import Py Builder SeqCells Models Samples.


(** * Properties *)

(** ** The slot map of [TwoEncodersCell.__call__] *)

Section slot_map.

Lemma foldl_insert_enumerate {A} (xs : list A) (n : nat) (acc : gmap nat A)
    (k : nat) :
  foldl (λ d kv, <[kv.1 := kv.2]> d) acc (enumerate_from n xs) !! k
  = if decide (n ≤ k ∧ k < n + length xs) then xs !! (k - n) else acc !! k.
Proof.
  revert n acc. induction xs as [|x xs IH]; intros n acc; simpl.
  - case_decide; [lia | done].
  - rewrite IH. destruct (decide (k = n)) as [->|Hne].
    + rewrite decide_False by lia. rewrite decide_True by lia.
      rewrite Nat.sub_diag. simpl. by rewrite lookup_insert_eq.
    + rewrite lookup_insert_ne by done.
      destruct (decide (n ≤ k)) as [Hle|Hgt].
      * replace (k - n) with (S (k - S n)) by lia. simpl.
        repeat case_decide; (done || lia).
      * repeat case_decide; (done || lia).
Qed.

Lemma dict_enumerate_lookup {A} (xs : list A) (n k : nat) :
  dict (enumerate_from n xs) !! k
  = if decide (n ≤ k) then xs !! (k - n) else None.
Proof.
  unfold dict. rewrite foldl_insert_enumerate, lookup_empty.
  repeat case_decide; try (done || lia).
  symmetry. apply lookup_ge_None. lia.
Qed.

Lemma update_lookup {A} (d other : gmap nat A) (k : nat) :
  update d other !! k
  = match other !! k with Some v => Some v | None => d !! k end.
Proof.
  unfold update. rewrite lookup_union.
  destruct (other !! k), (d !! k); done.
Qed.

Lemma normalize_state_sequence (state : value) :
  normalize_state state
  = Ok (length (as_sequence state), Tuple (as_sequence state)).
Proof. by destruct state. Qed.

(** The slot map is the concatenation of the state components and the
    inputs, read as a dictionary from position to value. *)
Lemma islot_states_concat (inputs state : value) :
  ∃ m, islot_states inputs state = Ok m
       ∧ ∀ k, m !! k = (as_sequence state ++ as_sequence inputs) !! k.
Proof.
  unfold islot_states. rewrite normalize_state_sequence. simpl.
  set (sts := as_sequence state).
  destruct inputs as [| id | items]; simpl; eexists; (split; [done|]);
    intros k; rewrite update_lookup, ?dict_enumerate_lookup,
              ?lookup_singleton, Nat.sub_0_r.
  - destruct (decide (length sts = k)) as [<-|Hne]; simpl.
    + by rewrite lookup_app_r, Nat.sub_diag by lia.
    + destruct (decide (0 ≤ k)); [|lia].
      destruct (decide (k < length sts)).
      * by rewrite lookup_app_l.
      * rewrite !lookup_ge_None_2; [done| |lia].
        rewrite length_app. simpl. lia.
  - destruct (decide (length sts = k)) as [<-|Hne]; simpl.
    + by rewrite lookup_app_r, Nat.sub_diag by lia.
    + destruct (decide (0 ≤ k)); [|lia].
      destruct (decide (k < length sts)).
      * by rewrite lookup_app_l.
      * rewrite !lookup_ge_None_2; [done| |lia].
        rewrite length_app. simpl. lia.
  - destruct (decide (0 ≤ k)); [|lia].
    destruct (decide (length sts ≤ k)).
    + rewrite lookup_app_r by done.
      destruct (items !! (k - length sts)) eqn:E; [done|].
      apply lookup_ge_None_2. lia.
    + by rewrite lookup_app_l by lia.
Qed.

End slot_map.

(** Example: a two-component state and a single input in a tuple. *)
Example islot_states_two_one :
  ∃ m, islot_states (Tuple [Tensor 5]) (Tuple [Tensor 1; Tensor 2]) = Ok m
       ∧ m !! 0 = Some (Tensor 1) ∧ m !! 1 = Some (Tensor 2)
       ∧ m !! 2 = Some (Tensor 5) ∧ m !! 3 = None.
Proof.
  destruct (islot_states_concat (Tuple [Tensor 5]) (Tuple [Tensor 1; Tensor 2]))
    as (m & Hm & Hk).
  exists m. by rewrite !Hk.
Qed.

(** C1, as amended: in [TwoEncodersCell.__call__] the slot map handed to
    the private encoder holds the state components at the indices 0, 1,
    ... in their given order, then the inputs from the index after the
    last state component on, and nothing else.
    [NormalTriLCell.__call__] builds no slot map: its node is called with
    the two arguments of the call as they are. *)
Theorem C1_states_then_inputs (inputs state : value) :
  (∃ m : gmap nat value,
     islot_states inputs state = Ok m
     ∧ (∀ enc, TwoEncodersCell_call enc inputs state
               = (out ← enc m ; '(output, _) ← unpack2 out ;
                  Ok (output, output)))
     ∧ (∀ k, m !! k = (as_sequence state ++ as_sequence inputs) !! k)
     ∧ (∀ j, m !! (length (as_sequence state) + j) = as_sequence inputs !! j))
  ∧ (∀ node (first second : object),
       NormalTriLCell_call node first second
       = (output ← node first second ; Ok (output, output))).
Proof.
  split; [|done].
  destruct (islot_states_concat inputs state) as (m & Hm & Hk).
  exists m. split; [done|]. split; [|split; [done|]].
  - intros enc. unfold TwoEncodersCell_call. by rewrite Hm.
  - intros j. rewrite Hk, lookup_app_r by lia. f_equal. lia.
Qed.

(** ** Bare arguments *)

Lemma islot_states_bare (inputs state : value) :
  bare inputs → bare state →
  islot_states inputs state = Ok {[0 := state; 1 := inputs]}.
Proof.
  intros Hi Hs.
  destruct (islot_states_concat inputs state) as (m & -> & Hk).
  f_equal. apply map_eq. intros k. rewrite Hk.
  destruct inputs, state; try done; simpl;
    destruct k as [|[|k]]; by simplify_map_eq.
Qed.

Lemma islot_states_wrapped (inputs state : value) :
  islot_states (Tuple [inputs]) (Tuple [state])
  = Ok {[0 := state; 1 := inputs]}.
Proof.
  destruct (islot_states_concat (Tuple [inputs]) (Tuple [state]))
    as (m & -> & Hk).
  f_equal. apply map_eq. intros k. rewrite Hk. simpl.
  destruct k as [|[|k]]; by simplify_map_eq.
Qed.

(** C2, as amended: called with a bare state and a bare input, the
    two-encoder cell does not raise while it builds the slot map: the state
    goes to slot 0 and the input to slot 1, exactly as for the two
    one-element sequences, and the call returns as soon as the encoder
    returns a pair. The TriL cell does no normalization: its node receives
    both arguments as they were passed. *)
Theorem C2_bare_arguments (inputs state : value) :
  bare inputs → bare state →
  islot_states inputs state = Ok {[0 := state; 1 := inputs]}
  ∧ islot_states inputs state = islot_states (Tuple [inputs]) (Tuple [state])
  ∧ (∀ enc, TwoEncodersCell_call enc inputs state
            = TwoEncodersCell_call enc (Tuple [inputs]) (Tuple [state]))
  ∧ (∀ enc o1 o2, enc {[0 := state; 1 := inputs]} = Ok (Tuple [o1; o2]) →
        TwoEncodersCell_call enc inputs state = Ok (o1, o1))
  ∧ (∀ node, NormalTriLCell_call node (Val inputs) (Val state)
             = (output ← node (Val inputs) (Val state) ; Ok (output, output))).
Proof.
  intros Hi Hs.
  pose proof (islot_states_bare inputs state Hi Hs) as Hb.
  pose proof (islot_states_wrapped inputs state) as Hw.
  repeat split.
  - done.
  - by rewrite Hb, Hw.
  - intros enc. unfold TwoEncodersCell_call. by rewrite Hb, Hw.
  - intros enc o1 o2 Henc. unfold TwoEncodersCell_call.
    rewrite Hb. simpl. by rewrite Henc.
Qed.

Lemma C2_bare_arguments_witness :
  islot_states (Tensor 0) (Tensor 1) = Ok {[0 := Tensor 1; 1 := Tensor 0]}
  ∧ TwoEncodersCell_call two_outputs (Tensor 0) (Tensor 1)
    = Ok (Tensor 7, Tensor 7).
Proof.
  destruct (C2_bare_arguments (Tensor 0) (Tensor 1) I I)
    as (H1 & _ & _ & H4 & _).
  split; [exact H1 | apply (H4 two_outputs (Tensor 7) (Tensor 8)); reflexivity].
Defined.

(** C2 as stated fails for the single-state cell: the TriL cell does
    not wrap bare arguments, so a call with two bare arguments and the
    call with the same arguments wrapped are not the same call. With a
    node that accepts one-element sequences only, the first raises and
    the second returns. *)
Lemma C2_tril_not_normalized :
  ¬ (∀ node,
       NormalTriLCell_call node (Val (Tensor 0)) (Val (Tensor 1))
       = NormalTriLCell_call node
           (Val (Tuple [Tensor 0])) (Val (Tuple [Tensor 1])))
  ∧ NormalTriLCell_call sequences_only (Val (Tensor 0)) (Val (Tensor 1))
    = Raise TypeError
  ∧ NormalTriLCell_call sequences_only
      (Val (Tuple [Tensor 0])) (Val (Tuple [Tensor 1]))
    = Ok (Tensor 0, Tensor 0).
Proof.
  split; [|split; reflexivity].
  intros H. specialize (H sequences_only). discriminate H.
Qed.

(** C1 as stated fails for the TriL cell. Called the way the two-encoder
    cell is, with an input and a state, it hands its node the state
    itself where the claim has the slot map of state, then input: a node
    that reads islot 0 of its slot map finds the state in that map, and
    finds no map in the call. A slot map passed by the caller goes
    through as it is, whatever its order. *)
Lemma C1_tril_builds_no_slot_map :
  islot_states (Tensor 0) (Tensor 1) = Ok {[0 := Tensor 1; 1 := Tensor 0]}
  ∧ reads_islot_0 (Val (Tensor 0)) (SlotMap {[0 := Tensor 1; 1 := Tensor 0]})
    = Ok (Tensor 1)
  ∧ NormalTriLCell_call reads_islot_0 (Val (Tensor 0)) (Val (Tensor 1))
    = Raise TypeError
  ∧ NormalTriLCell_call reads_islot_0 (Val PyNone)
      (SlotMap {[0 := Tensor 0; 1 := Tensor 1]})
    = Ok (Tensor 0, Tensor 0)
  ∧ ¬ (∀ node inputs state,
         ∃ m, islot_states inputs state = Ok m
              ∧ NormalTriLCell_call node (Val inputs) (Val state)
                = (output ← node (Val inputs) (SlotMap m) ;
                   Ok (output, output))).
Proof.
  assert (H0 : islot_states (Tensor 0) (Tensor 1)
               = Ok {[0 := Tensor 1; 1 := Tensor 0]}).
  { by apply islot_states_bare. }
  split; [exact H0|]. split; [vm_compute; reflexivity|].
  split; [reflexivity|]. split; [vm_compute; reflexivity|].
  intros H.
  destruct (H reads_islot_0 (Tensor 0) (Tensor 1)) as (m & Hm & Hcall).
  rewrite H0 in Hm. injection Hm as <-.
  vm_compute in Hcall. discriminate Hcall.
Qed.

(** ** What [__call__] returns *)

Lemma value_not_in_pair (o1 o2 : value) : o1 ≠ Tuple [o1; o2].
Proof. intros H. apply (f_equal size) in H. simpl in H. lia. Qed.

Lemma unpack2_Ok (v a b : value) :
  unpack2 v = Ok (a, b) ↔ v = Tuple [a; b].
Proof.
  split; [|by intros ->].
  destruct v as [| |[|x [|y [|z items]]]]; intros H; cbv in H; congruence.
Qed.

(** C10: whenever the two-encoder cell returns, the encoder has returned
    a pair and both components of the result are its first output; the new
    state is that one value, not the pair of both outputs. When the encoder
    returns a pair the call does return. *)
Theorem C10_first_output_twice
    (enc : gmap nat value → result value) (inputs state : value) :
  (∀ r, TwoEncodersCell_call enc inputs state = Ok r →
        ∃ m o1 o2, islot_states inputs state = Ok m
                   ∧ enc m = Ok (Tuple [o1; o2])
                   ∧ r = (o1, o1)
                   ∧ r.2 ≠ Tuple [o1; o2])
  ∧ (∀ m o1 o2, islot_states inputs state = Ok m →
                enc m = Ok (Tuple [o1; o2]) →
                TwoEncodersCell_call enc inputs state = Ok (o1, o1)).
Proof.
  split.
  - intros r. unfold TwoEncodersCell_call.
    destruct (islot_states inputs state) as [m|] eqn:Hm; [|done]. simpl.
    destruct (enc m) as [out|] eqn:Hout; [|done]. simpl.
    destruct (unpack2 out) as [[a b]|] eqn:Hun; [|done]. simpl.
    intros [= <-]. apply unpack2_Ok in Hun as ->.
    exists m, a, b. repeat split; [done|]. apply value_not_in_pair.
  - intros m o1 o2 Hm Henc. unfold TwoEncodersCell_call.
    rewrite Hm. simpl. by rewrite Henc.
Qed.

Lemma C10_first_output_twice_witness :
  TwoEncodersCell_call two_outputs (Tensor 0) (Tuple [Tensor 1; Tensor 2])
  = Ok (Tensor 7, Tensor 7).
Proof.
  destruct (C10_first_output_twice two_outputs (Tensor 0)
              (Tuple [Tensor 1; Tensor 2])) as [_ H].
  destruct (islot_states_concat (Tensor 0) (Tuple [Tensor 1; Tensor 2]))
    as (m & Hm & _).
  apply (H m (Tensor 7) (Tensor 8)); [exact Hm | reflexivity].
Defined.

(** ** The abstract contract *)

Section contract.

Context {dim directive : Type}.
Variable class_oslots : node_class → nat.
Implicit Types c : @cell dim directive.

Lemma concrete_sizes c :
  cls c ≠ CustomCell →
  state_size c = get_state_dims c ∧ output_size c = get_state_dims c.
Proof. unfold state_size, output_size. by destruct (cls c). Qed.

Lemma base_raises c (caller : option nat) (h : store dim directive) :
  cls c = CustomCell →
  state_size c = Raise NotImplementedError
  ∧ output_size c = Raise NotImplementedError
  ∧ get_init_states class_oslots c caller h = Raise NotImplementedError.
Proof.
  unfold state_size, output_size, get_init_states. by intros ->.
Qed.

Lemma inherited_raises c (caller : option nat) (h : store dim directive) :
  (own_state_size (dim:=dim) (directive:=directive) (cls c) = None →
     state_size c = Raise NotImplementedError)
  ∧ (own_output_size (dim:=dim) (directive:=directive) (cls c) = None →
     output_size c = Raise NotImplementedError)
  ∧ (own_get_init_states (dim:=dim) (directive:=directive) class_oslots
       (cls c) = None →
     get_init_states class_oslots c caller h = Raise NotImplementedError).
Proof.
  unfold state_size, output_size, get_init_states.
  by destruct (cls c).
Qed.

End contract.

(** ** Running the constructors *)

Section store.

Context {dim directive : Type}.
Variable class_oslots : node_class → nat.
Implicit Types (h : store dim directive) (c self : @cell dim directive).
Implicit Types b pb : builder_of (@entry dim directive).

Lemma on_builder_Some {A} (f : _ → result (A * _)) h l b :
  h !! l = Some b →
  on_builder (Some l) f h
  = match f b with
    | Ok (a, b') => Ok (a, <[l := b']> h)
    | Raise e => Raise e
    end.
Proof. intros Hl. unfold on_builder. by rewrite Hl. Qed.

Lemma on_builder_last {A} (f : _ → result (A * _)) h pb :
  on_builder (Some (length h)) f (h ++ [pb])
  = match f pb with
    | Ok (a, pb') => Ok (a, h ++ [pb'])
    | Raise e => Raise e
    end.
Proof.
  rewrite (on_builder_Some _ _ _ pb).
  - destruct (f pb) as [[a pb']|]; [|done].
    by rewrite insert_app_r_alt, Nat.sub_diag by lia.
  - by rewrite lookup_app_r, Nat.sub_diag by lia.
Qed.

Lemma on_custom_last {A} (f : custom_node → result (A * custom_node))
    h sc nm (cn : @custom_node dim directive) ls k cm :
  on_custom (length h) nm f (h ++ [MkBuilder sc [(nm, Custom cn)] ls k cm])
  = put_custom h sc nm ls k cm (f cn).
Proof.
  unfold on_custom, put_custom. rewrite on_builder_last.
  unfold get_node. simpl.
  destruct (decide (nm = nm)); [|done]. simpl.
  by destruct (f cn) as [[a cn']|].
Qed.

(** One call on the custom node: evaluate it on the node at hand. *)
Ltac run_custom :=
  rewrite on_custom_last;
  match goal with
  | |- context [put_custom _ _ _ _ _ _ ?t] =>
      let t' := eval vm_compute in t in change t with t'
  end;
  unfold put_custom; cbv beta iota.

Lemma state_size_concrete self sz :
  cls self ≠ CustomCell → state_dims self = Some sz →
  state_size self = Ok sz.
Proof.
  intros Hk Hsz. unfold state_size.
  destruct (cls self); [done| |]; simpl; unfold get_state_dims;
    by rewrite Hsz.
Qed.

Lemma declare_cell_encoder_run self h sz :
  0 < class_oslots DefaultInnerNode →
  builder self = length h →
  cls self = TwoEncodersCell →
  state_dims self = Some sz →
  TwoEncodersCell_declare_cell_encoder class_oslots self
    (h ++ [StaticBuilder "Cell"])
  = Ok (Named "Custom", h ++ [encoder_graph class_oslots sz]).
Proof.
  intros Hos Hb Hk Hsz.
  assert (Hss : state_size self = Ok sz).
  { apply state_size_concrete; [by rewrite Hk | done]. }
  unfold TwoEncodersCell_declare_cell_encoder, update_custom, encoder_graph,
    cust_addInner, addInner.
  rewrite Hb, Hss.
  destruct (class_oslots DefaultInnerNode) as [|n]; [lia|].
  unfold mbind at 1 2 3 4 5 6 7 8 9 10 11 12 13.
  unfold M_bind, mret, M_ret, lift. cbv beta.
  rewrite on_builder_last. cbv beta iota.
  unfold createCustomNode, register, StaticBuilder. simpl.
  repeat run_custom. reflexivity.
Qed.

Lemma get_init_states_two_run self h e b dims :
  ext_builder self = Some e →
  state_dims self = Some dims →
  h !! e = Some b →
  TwoEncodersCell_get_init_states class_oslots self h
  = Ok ([Auto (counter b); Auto (S (counter b))],
        <[e := with_two_inits class_oslots dims b]> h).
Proof.
  intros He Hd Hb.
  unfold TwoEncodersCell_get_init_states, get_state_dims, with_two_inits.
  rewrite He, Hd.
  unfold mbind, M_bind, mret, M_ret, lift. cbv beta.
  rewrite (on_builder_Some _ _ _ b Hb).
  unfold addInput, register. cbn -[on_builder].
  erewrite on_builder_Some;
    [|apply list_lookup_insert_eq; by eapply lookup_lt_Some].
  cbn. by rewrite list_insert_insert_eq.
Qed.

Lemma get_init_states_two_None self h :
  ext_builder self = None →
  ∃ e, TwoEncodersCell_get_init_states class_oslots self h = Raise e.
Proof.
  intros He. unfold TwoEncodersCell_get_init_states, get_state_dims.
  rewrite He. unfold mbind, M_bind, lift. cbv beta.
  destruct (state_dims self); simpl; eauto.
Qed.

Lemma get_init_states_tril_run self h e b dims :
  cls self = NormalTriLCell →
  state_dims self = Some dims →
  directives self !! "iclass" = None →
  h !! e = Some b →
  get_init_states class_oslots self (Some e) h
  = Ok ([Auto (counter b)],
        <[e := with_one_init class_oslots dims (directives self) b]> h).
Proof.
  intros Hk Hd Hi Hb. unfold get_init_states. rewrite Hk. simpl.
  unfold NormalTriLCell_get_init_states, get_state_dims, with_one_init.
  unfold mbind at 1. unfold M_bind.
  rewrite (on_builder_Some _ _ _ b Hb), Hd. simpl.
  destruct (decide (is_Some (directives self !! "iclass"))) as [[x Hx]|_];
    [congruence | done].
Qed.

(** A directive named [iclass] gives the keyword twice. *)
Lemma get_init_states_tril_iclass self h e b dims :
  cls self = NormalTriLCell →
  state_dims self = Some dims →
  is_Some (directives self !! "iclass") →
  h !! e = Some b →
  get_init_states class_oslots self (Some e) h = Raise TypeError.
Proof.
  intros Hk Hd Hi Hb. unfold get_init_states. rewrite Hk. simpl.
  unfold NormalTriLCell_get_init_states, get_state_dims.
  unfold mbind at 1. unfold M_bind.
  rewrite (on_builder_Some _ _ _ b Hb), Hd. simpl.
  by destruct (decide (is_Some (directives self !! "iclass"))).
Qed.

(** Without a builder there is no [addInput] to look up. *)
Lemma get_init_states_tril_None self h :
  cls self = NormalTriLCell →
  get_init_states class_oslots self None h = Raise AttributeError.
Proof. intros Hk. unfold get_init_states. by rewrite Hk. Qed.

Lemma TwoEncodersCell_init_run sizes e b ni no name dirs h :
  0 < class_oslots DefaultInnerNode →
  h !! e = Some b →
  TwoEncodersCell_init class_oslots sizes (Some e) ni no name dirs h
  = Ok (Cell TwoEncodersCell (Some e) (length h) ni no (Some sizes)
             (default "TwoEncCell" name) dirs (Some (Named "Custom"))
             (Some [Auto (counter b); Auto (S (counter b))]),
        <[e := with_two_inits class_oslots sizes b]>
          (h ++ [encoder_graph class_oslots sizes])).
Proof.
  intros Hos Hb. unfold TwoEncodersCell_init, CustomCell_init, alloc.
  unfold mbind, M_bind, mret, M_ret. cbv beta iota.
  rewrite (declare_cell_encoder_run _ _ sizes) by done. cbv beta iota.
  rewrite (get_init_states_two_run _ _ e b sizes);
    [done..|]. by apply lookup_app_l_Some.
Qed.

Lemma TwoEncodersCell_init_None sizes ni no name dirs h :
  0 < class_oslots DefaultInnerNode →
  TwoEncodersCell_init class_oslots sizes None ni no name dirs h
  = Raise AttributeError.
Proof.
  intros Hos. unfold TwoEncodersCell_init, CustomCell_init, alloc.
  unfold mbind, M_bind, mret, M_ret. cbv beta iota.
  by rewrite (declare_cell_encoder_run _ _ sizes) by done.
Qed.

(** The constructor of the TriL cell stops at the assignment to [name],
    before the encoder is declared. *)
Lemma NormalTriLCell_init_raises sizes ni name dirs h :
  NormalTriLCell_init class_oslots sizes ni name dirs h
  = Raise AttributeError.
Proof. reflexivity. Qed.

(** [declare_cell_encoder] itself, on an instance whose sizes are set. *)
Lemma tril_declare_cell_encoder_run self h dims :
  builder self = length h →
  state_dims self = Some dims →
  NormalTriLCell_declare_cell_encoder class_oslots self
    (h ++ [StaticBuilder "Cell"])
  = Ok (Named "NormalTriLCell", h ++ [tril_graph class_oslots dims]).
Proof.
  intros Hb Hd. unfold NormalTriLCell_declare_cell_encoder, get_state_dims.
  rewrite Hb, Hd.
  unfold mbind, M_bind, mret, M_ret, lift. cbn -[on_builder].
  rewrite on_builder_last. cbv beta iota.
  unfold addInner, register, StaticBuilder. cbn -[on_builder].
  rewrite on_builder_last. unfold get_node. cbn.
  destruct (decide (Named "NormalTriLCell" = Named "NormalTriLCell"));
    done.
Qed.

(** The handles of the registered nodes resolve in the builder. *)
Lemma assoc_get_set_eq {V} (k : node_name) (v : V) d :
  assoc_get k (assoc_set k v d) = Some v.
Proof.
  induction d as [|[k' v'] d IH]; simpl.
  - by destruct (decide (k = k)).
  - destruct (decide (k' = k)) as [->|Hne]; simpl.
    + by destruct (decide (k = k)).
    + by destruct (decide (k' = k)).
Qed.

Lemma assoc_get_set_ne {V} (k k' : node_name) (v : V) d :
  k ≠ k' → assoc_get k (assoc_set k' v d) = assoc_get k d.
Proof.
  intros Hne. induction d as [|[k0 v0] d IH]; simpl.
  - by destruct (decide (k' = k)).
  - destruct (decide (k0 = k')) as [->|Hne0]; simpl.
    + by destruct (decide (k' = k)).
    + by rewrite IH.
Qed.

Lemma with_two_inits_nodes dims b :
  get_node (Auto (counter b)) (with_two_inits class_oslots dims b)
  = Ok (init_node class_oslots (slice_to 1 dims) ∅)
  ∧ get_node (Auto (S (counter b))) (with_two_inits class_oslots dims b)
    = Ok (init_node class_oslots (slice_from 1 dims) ∅)
  ∧ counter (with_two_inits class_oslots dims b) = S (S (counter b)).
Proof.
  unfold with_two_inits, addInput, register, get_node, init_node. simpl.
  rewrite assoc_get_set_ne by (intros [=]; lia).
  by rewrite !assoc_get_set_eq.
Qed.

Lemma with_one_init_node dims dirs b :
  get_node (Auto (counter b)) (with_one_init class_oslots dims dirs b)
  = Ok (init_node class_oslots dims dirs)
  ∧ counter (with_one_init class_oslots dims dirs b) = S (counter b).
Proof.
  unfold with_one_init, addInput, register, get_node, init_node. simpl.
  by rewrite assoc_get_set_eq.
Qed.

Lemma M_bind_Ok {A B} (m : M A) (k : A → M B) h (r : B) h2 :
  (m ≫= k) h = Ok (r, h2) →
  ∃ a h1, m h = Ok (a, h1) ∧ k a h1 = Ok (r, h2).
Proof.
  unfold mbind, M_bind. destruct (m h) as [[a h1]|]; [eauto|done].
Qed.

(** What a successful construction of a two-encoder cell tells about the
    cell, whatever the node classes are. *)
Lemma TwoEncodersCell_init_refs sizes ext ni no name dirs h c h' :
  TwoEncodersCell_init class_oslots sizes ext ni no name dirs h = Ok (c, h') →
  cls c = TwoEncodersCell
  ∧ builder c = length h
  ∧ ext_builder c = ext
  ∧ state_dims c = Some sizes.
Proof.
  unfold TwoEncodersCell_init. intros H.
  apply M_bind_Ok in H as (self & h1 & H1 & H).
  apply M_bind_Ok in H as (enc & h2 & _ & H).
  apply M_bind_Ok in H as (inits & h3 & _ & H).
  injection H1 as <- <-. by injection H as <- <-.
Qed.

(** A call on a builder changes that builder only. *)
Lemma on_builder_frame {A} (f : _ → result (A * _)) ref h (a : A) h' :
  on_builder ref f h = Ok (a, h') →
  length h' = length h ∧ ∀ l, ref ≠ Some l → h' !! l = h !! l.
Proof.
  unfold on_builder. destruct ref as [l0|]; [|done].
  destruct (h !! l0) as [b|]; [|done].
  destruct (f b) as [[a' b']|]; [|done]. intros [= <- <-].
  split; [by rewrite length_insert|].
  intros l Hne. apply list_lookup_insert_ne. congruence.
Qed.

Lemma register_init_states_frame self caller h inits h' :
  register_init_states class_oslots self caller h = Ok (inits, h') →
  length h' = length h
  ∧ ∀ l, registration_target self caller ≠ Some l → h' !! l = h !! l.
Proof.
  unfold register_init_states, get_init_states, registration_target.
  destruct (cls self); simpl; [done| |].
  - unfold TwoEncodersCell_get_init_states. intros H.
    apply M_bind_Ok in H as (dims & h1 & H1 & H).
    apply M_bind_Ok in H as (i1 & h2 & H2 & H).
    apply M_bind_Ok in H as (dims' & h3 & H3 & H).
    apply M_bind_Ok in H as (i2 & h4 & H4 & H).
    unfold lift in H1, H3.
    destruct (get_state_dims self); [|done].
    injection H1 as <- <-. injection H3 as <- <-. injection H as <- <-.
    apply on_builder_frame in H2 as [L2 F2].
    apply on_builder_frame in H4 as [L4 F4].
    split; [congruence|]. intros l Hl. by rewrite F4, F2.
  - unfold NormalTriLCell_get_init_states. intros H.
    apply M_bind_Ok in H as (i1 & h2 & H2 & H).
    injection H as <- <-.
    apply on_builder_frame in H2 as [L2 F2].
    split; [done|]. intros l Hl. by apply F2.
Qed.

(** What a successful construction leaves behind. *)
Lemma construct_run a h c h' :
  0 < class_oslots DefaultInnerNode →
  allocated (external_of a) h →
  construct class_oslots a h = Ok (c, h') →
  builder c = length h
  ∧ ext_builder c = external_of a
  ∧ length h' = S (length h)
  ∧ h' !! length h = Some (graph_of class_oslots a)
  ∧ (∀ l, external_of a ≠ Some l → l < length h → h' !! l = h !! l)
  ∧ ∀ l b, external_of a = Some l → h !! l = Some b →
      h' !! l = Some (with_two_inits class_oslots (sizes_of a) b).
Proof.
  intros Hos Hal. destruct a as [sizes [e|] ni no name dirs|sizes ni name dirs];
    simpl in *.
  - destruct (lookup_lt_is_Some_2 h e Hal) as [b Hb].
    rewrite (TwoEncodersCell_init_run _ _ b) by done.
    intros [= <- <-]. simpl. split_and!; try done.
    + rewrite length_insert, length_app. simpl. lia.
    + rewrite list_lookup_insert_ne by lia.
      by rewrite lookup_app_r, Nat.sub_diag by lia.
    + intros l Hne Hl. rewrite list_lookup_insert_ne by congruence.
      by apply lookup_app_l.
    + intros l b' [= <-] Hb'. rewrite Hb in Hb'. injection Hb' as <-.
      apply list_lookup_insert_eq. rewrite length_app. lia.
  - by rewrite TwoEncodersCell_init_None.
  - by rewrite NormalTriLCell_init_raises.
Qed.

(** A constructed cell is of a concrete class and keeps the sizes it was
    given. *)
Lemma construct_sizes a h c h' :
  construct class_oslots a h = Ok (c, h') →
  cls c ≠ CustomCell ∧ state_dims c = Some (sizes_of a).
Proof.
  destruct a as [sizes ext ni no name dirs|sizes ni name dirs]; simpl.
  - unfold TwoEncodersCell_init. intros H.
    apply M_bind_Ok in H as (self & h1 & H1 & H).
    apply M_bind_Ok in H as (enc & h2 & _ & H).
    apply M_bind_Ok in H as (inits & h3 & _ & H).
    injection H1 as <- <-. by injection H as <- <-.
  - by rewrite NormalTriLCell_init_raises.
Qed.

(** Only the constructor of the two-encoder cell returns. *)
Lemma construct_class a h c h' :
  construct class_oslots a h = Ok (c, h') → cls c = TwoEncodersCell.
Proof.
  destruct a as [sizes ext ni no name dirs|sizes ni name dirs]; simpl.
  - intros H. by apply TwoEncodersCell_init_refs in H as (Hk & _).
  - by rewrite NormalTriLCell_init_raises.
Qed.

End store.

(** ** Construction and registration of initial states *)

Section construction.

Context {dim directive : Type}.
Variable class_oslots : node_class → nat.
Implicit Types (h : store dim directive) (c self : @cell dim directive).
Implicit Types b pb : builder_of (@entry dim directive).

(** C3, as amended: the two-encoder cell registers exactly two input
    nodes, of shapes [state_dims[:1]] and [state_dims[1:]], on the
    external builder it was constructed with and returns their two
    handles in that order; with two sizes that is one node per state
    component. That builder is never the private builder of the cell,
    which the constructor creates. The TriL cell, when no directive is
    named [iclass], registers exactly one input node of shape
    [state_dims] on the builder the caller passes and returns its handle.
    Either registration changes the builder it works on and no other: the
    private builder of a TriL cell is touched only if the caller passes
    that very builder. *)
Theorem C3_init_states_per_class self h e b dims :
  state_dims self = Some dims →
  h !! e = Some b →
  (cls self = TwoEncodersCell → ext_builder self = Some e →
     ∀ caller,
       register_init_states class_oslots self caller h
       = Ok ([Auto (counter b); Auto (S (counter b))],
             <[e := with_two_inits class_oslots dims b]> h)
       ∧ get_node (Auto (counter b)) (with_two_inits class_oslots dims b)
         = Ok (init_node class_oslots (slice_to 1 dims) ∅)
       ∧ get_node (Auto (S (counter b)))
           (with_two_inits class_oslots dims b)
         = Ok (init_node class_oslots (slice_from 1 dims) ∅)
       ∧ (∀ l, l ≠ e →
            <[e := with_two_inits class_oslots dims b]> h !! l = h !! l)
       ∧ ∀ s1 s2, dims = [s1; s2] →
           slice_to 1 dims = [s1] ∧ slice_from 1 dims = [s2])
  ∧ (∀ sizes ni no name dirs c h',
       TwoEncodersCell_init class_oslots sizes (Some e) ni no name dirs h
       = Ok (c, h') →
       cls c = TwoEncodersCell
       ∧ ext_builder c = Some e
       ∧ state_dims c = Some sizes
       ∧ builder c ≠ e)
  ∧ (cls self = NormalTriLCell → directives self !! "iclass" = None →
       register_init_states class_oslots self (Some e) h
       = Ok ([Auto (counter b)],
             <[e := with_one_init class_oslots dims (directives self) b]> h)
       ∧ get_node (Auto (counter b))
           (with_one_init class_oslots dims (directives self) b)
         = Ok (init_node class_oslots dims (directives self))
       ∧ (∀ l, l ≠ e →
            <[e := with_one_init class_oslots dims (directives self) b]> h
              !! l
            = h !! l)
       ∧ (builder self = e →
            <[e := with_one_init class_oslots dims (directives self) b]> h
              !! builder self
            = Some (with_one_init class_oslots dims (directives self) b))).
Proof.
  intros Hd Hb. pose proof (lookup_lt_Some _ _ _ Hb) as Hlt. split_and!.
  - intros Hk He caller. unfold register_init_states. rewrite Hk.
    destruct (with_two_inits_nodes class_oslots dims b) as (N1 & N2 & _).
    split_and!; try done.
    + by apply get_init_states_two_run.
    + intros l Hl. by apply list_lookup_insert_ne.
    + by intros s1 s2 ->.
  - intros sizes ni no name dirs c h' Hc.
    apply TwoEncodersCell_init_refs in Hc as (Hk & Hbc & He & Hs).
    split_and!; try done. lia.
  - intros Hk Hi. unfold register_init_states. rewrite Hk.
    destruct (with_one_init_node class_oslots dims (directives self) b)
      as (N1 & _).
    split_and!; try done.
    + by apply get_init_states_tril_run.
    + intros l Hl. by apply list_lookup_insert_ne.
    + intros ->. by apply list_lookup_insert_eq.
Qed.

(** C5: constructing a two-encoder cell builds, inside the constructor,
    the private one-step graph in a new builder and registers the two
    initial-state nodes on the external builder passed in. The constructor
    of the TriL cell does not get as far as [declare_cell_encoder]: it
    raises AttributeError at the assignment to [name], whatever its
    arguments are. *)
Theorem C5_construction_side_effects h e b sizes ni no name dirs :
  0 < class_oslots DefaultInnerNode →
  h !! e = Some b →
  (∃ c h',
      TwoEncodersCell_init class_oslots sizes (Some e) ni no name dirs h
      = Ok (c, h')
      ∧ encoder c = Some (Named "Custom")
      ∧ h !! builder c = None
      ∧ h' !! builder c = Some (encoder_graph class_oslots sizes)
      ∧ init_states c = Some [Auto (counter b); Auto (S (counter b))]
      ∧ h' !! e = Some (with_two_inits class_oslots sizes b)
      ∧ get_node (Auto (counter b)) (with_two_inits class_oslots sizes b)
        = Ok (init_node class_oslots (slice_to 1 sizes) ∅)
      ∧ get_node (Auto (S (counter b)))
          (with_two_inits class_oslots sizes b)
        = Ok (init_node class_oslots (slice_from 1 sizes) ∅))
  ∧ NormalTriLCell_init class_oslots sizes ni name dirs h
    = Raise AttributeError.
Proof.
  intros Hos Hb. pose proof (lookup_lt_Some _ _ _ Hb) as Hlt.
  destruct (with_two_inits_nodes class_oslots sizes b) as (N1 & N2 & _).
  split.
  - eexists _, _. split; [by apply (TwoEncodersCell_init_run _ _ e b)|].
    simpl. split_and!; try done.
    + by apply lookup_ge_None_2.
    + rewrite list_lookup_insert_ne by lia.
      by rewrite lookup_app_r, Nat.sub_diag by lia.
    + apply list_lookup_insert_eq. rewrite length_app. lia.
  - apply NormalTriLCell_init_raises.
Qed.

(** C9: whatever [num_inputs] and [num_outputs] are passed, the custom
    node built for the two-encoder cell has 3 external islots and 2
    external oslots; when [num_inputs] is not 3 or [num_outputs] is not 2
    the expected slot counts kept on the cell disagree with it. *)
Theorem C9_hard_coded_slots h e b sizes ni no name dirs :
  0 < class_oslots DefaultInnerNode →
  h !! e = Some b →
  ni ≠ 3 ∨ no ≠ 2 →
  ∃ c h' pb cn,
    TwoEncodersCell_init class_oslots sizes (Some e) ni no name dirs h
    = Ok (c, h')
    ∧ num_expected_inputs c = ni
    ∧ num_expected_outputs c = no
    ∧ encoder c = Some (Named "Custom")
    ∧ h' !! builder c = Some pb
    ∧ get_node (Named "Custom") pb = Ok (Custom cn)
    ∧ c_num_inputs cn = 3
    ∧ c_num_outputs cn = 2
    ∧ (num_expected_inputs c, num_expected_outputs c)
      ≠ (c_num_inputs cn, c_num_outputs cn).
Proof.
  intros Hos Hb Hne. pose proof (lookup_lt_Some _ _ _ Hb) as Hlt.
  eexists _, _, (encoder_graph class_oslots sizes), _.
  split; [by apply (TwoEncodersCell_init_run _ _ e b)|].
  simpl. split_and!; try done.
  - rewrite list_lookup_insert_ne by lia.
    by rewrite lookup_app_r, Nat.sub_diag by lia.
  - simpl. intros [= -> ->]. by destruct Hne.
Qed.

(** C7, as amended: the private builders of two cells constructed one
    after the other are two different objects, each new in the store when
    its cell is constructed, and so different from the external builder
    of its own cell and of every earlier cell; each holds the step graph
    of its own cell when the constructor returns. The external builder of
    the second cell may be any builder that exists by then, the private
    builder of the first cell among them: the second construction leaves
    the graph of the first cell as it was unless it was handed that very
    builder, and then adds its two initial-state nodes to it. A later
    registration of initial states by either cell changes the builder it
    works on and no other: never the private builder of the second cell,
    and that of the first only if it is the external builder of the cell
    that registers. *)
Theorem C7_private_builders h a1 a2 c1 h1 c2 h2 :
  0 < class_oslots DefaultInnerNode →
  allocated (external_of a1) h →
  allocated (external_of a2) h1 →
  construct class_oslots a1 h = Ok (c1, h1) →
  construct class_oslots a2 h1 = Ok (c2, h2) →
  builder c1 ≠ builder c2
  ∧ h !! builder c1 = None
  ∧ h1 !! builder c2 = None
  ∧ ext_builder c1 ≠ Some (builder c1)
  ∧ ext_builder c1 ≠ Some (builder c2)
  ∧ ext_builder c2 ≠ Some (builder c2)
  ∧ h1 !! builder c1 = Some (graph_of class_oslots a1)
  ∧ h2 !! builder c2 = Some (graph_of class_oslots a2)
  ∧ (ext_builder c2 ≠ Some (builder c1) →
       h2 !! builder c1 = Some (graph_of class_oslots a1))
  ∧ (ext_builder c2 = Some (builder c1) →
       h2 !! builder c1
       = Some (with_two_inits class_oslots (sizes_of a2)
                 (graph_of class_oslots a1)))
  ∧ ∀ c caller inits h3,
      c = c1 ∨ c = c2 →
      register_init_states class_oslots c caller h2 = Ok (inits, h3) →
      (∀ l, registration_target c caller ≠ Some l → h3 !! l = h2 !! l)
      ∧ h3 !! builder c2 = h2 !! builder c2
      ∧ (ext_builder c ≠ Some (builder c1) →
           h3 !! builder c1 = h2 !! builder c1).
Proof.
  intros Hos Ha1 Ha2 H1 H2.
  pose proof (construct_class _ _ _ _ _ H1) as K1.
  pose proof (construct_class _ _ _ _ _ H2) as K2.
  apply construct_run in H1 as (B1 & E1 & L1 & G1 & F1 & _); [|done..].
  apply construct_run in H2 as (B2 & E2 & L2 & G2 & F2 & I2); [|done..].
  assert (X1 : ∀ l, external_of a1 = Some l → l < length h).
  { intros l Hl. by rewrite Hl in Ha1. }
  assert (X2 : ∀ l, external_of a2 = Some l → l < length h1).
  { intros l Hl. by rewrite Hl in Ha2. }
  rewrite B1, B2, E1, E2, L1.
  split_and!.
  - lia.
  - by apply lookup_ge_None_2.
  - apply lookup_ge_None_2. lia.
  - intros Hl. apply X1 in Hl. lia.
  - intros Hl. apply X1 in Hl. lia.
  - intros Hl. apply X2 in Hl. lia.
  - done.
  - by rewrite <- L1.
  - intros Hne. rewrite F2, G1; [done..|lia].
  - intros He. by apply I2.
  - intros c caller inits h3 Hc Hr.
    apply register_init_states_frame in Hr as [_ Fr].
    assert (Ht : registration_target c caller = ext_builder c).
    { unfold registration_target. by destruct Hc as [-> | ->]; rewrite ?K1, ?K2. }
    split; [exact Fr|]. split.
    + apply Fr. rewrite Ht. intros Hl.
      destruct Hc as [-> | ->].
      * rewrite E1 in Hl. apply X1 in Hl. lia.
      * rewrite E2 in Hl. apply X2 in Hl. lia.
    + intros Hne. apply Fr. by rewrite Ht.
Qed.

(** C4: for a cell of a concrete class [output_size] is [state_size],
    and both are the sizes the cell was constructed with; the
    single-state TriL cell returns the output of its node twice, as
    output and as new state. *)
Theorem C4_output_size_is_state_size :
  (∀ c, cls c ≠ CustomCell → output_size c = state_size c)
  ∧ (∀ a h c h',
       construct class_oslots a h = Ok (c, h') →
       state_size c = Ok (sizes_of a) ∧ output_size c = Ok (sizes_of a))
  ∧ (∀ node inputs islots o,
       node inputs islots = Ok o →
       NormalTriLCell_call node inputs islots = Ok (o, o))
  ∧ (∀ node inputs islots r,
       NormalTriLCell_call node inputs islots = Ok r →
       r.1 = r.2 ∧ node inputs islots = Ok r.1).
Proof.
  split_and!.
  - intros c Hk. destruct (concrete_sizes c Hk) as [-> ->]. done.
  - intros a h c h' Hc. apply construct_sizes in Hc as [Hk Hd].
    destruct (concrete_sizes c Hk) as [-> ->].
    unfold get_state_dims. by rewrite Hd.
  - intros node inputs islots o Ho. unfold NormalTriLCell_call.
    by rewrite Ho.
  - intros node inputs islots r. unfold NormalTriLCell_call.
    destruct (node inputs islots) as [o|]; [|done].
    by intros [= <-].
Qed.

(** C6, as amended: on an instance of the abstract base class the two
    size properties and [get_init_states] raise NotImplementedError, and
    so does each of them on an instance of any class that does not
    define it. The two concrete classes define [state_size] and
    [output_size]; the TriL cell defines [get_init_states], the
    two-encoder cell does not, so that [get_init_states] raises
    NotImplementedError on it. *)
Theorem C6_abstract_contract c (caller : option nat) h :
  (cls c = CustomCell →
     state_size c = Raise NotImplementedError
     ∧ output_size c = Raise NotImplementedError
     ∧ get_init_states class_oslots c caller h = Raise NotImplementedError)
  ∧ (own_state_size (dim:=dim) (directive:=directive) (cls c) = None →
     state_size c = Raise NotImplementedError)
  ∧ (own_output_size (dim:=dim) (directive:=directive) (cls c) = None →
     output_size c = Raise NotImplementedError)
  ∧ (own_get_init_states (dim:=dim) (directive:=directive) class_oslots
       (cls c) = None →
     get_init_states class_oslots c caller h = Raise NotImplementedError)
  ∧ (∀ k, k ≠ CustomCell →
       is_Some (own_state_size (dim:=dim) (directive:=directive) k)
       ∧ is_Some (own_output_size (dim:=dim) (directive:=directive) k))
  ∧ is_Some (own_get_init_states (dim:=dim) (directive:=directive)
               class_oslots NormalTriLCell)
  ∧ own_get_init_states (dim:=dim) (directive:=directive) class_oslots
      TwoEncodersCell = None
  ∧ (cls c = TwoEncodersCell →
     get_init_states class_oslots c caller h = Raise NotImplementedError).
Proof.
  destruct (inherited_raises class_oslots c caller h) as (I1 & I2 & I3).
  split_and!; try done.
  - by apply base_raises.
  - intros k Hk. by destruct k.
  - intros Hk. apply I3. by rewrite Hk.
Qed.

End construction.

(** ** The properties at sample inputs *)

Lemma one_oslot_positive : 0 < one_oslot DefaultInnerNode.
Proof. unfold one_oslot. lia. Qed.

Lemma C3_init_states_per_class_witness :
  register_init_states one_oslot two_cell None cell_store
  = Ok ([Auto 0; Auto 1], built_store).
Proof.
  destruct (C3_init_states_per_class one_oslot two_cell cell_store 0
              (StaticBuilder "Main") [3; 4] eq_refl eq_refl) as [H _].
  destruct (H eq_refl eq_refl None) as [H1 _]. exact H1.
Defined.

(** A TriL instance whose caller passes the private builder of the
    instance itself gets its initial-state node on that builder; one with
    a directive named [iclass] gets a TypeError and no node. *)
Example tril_init_state_on_private_builder :
  ∃ inits h',
    get_init_states one_oslot tril_cell (Some (builder tril_cell)) tril_store
    = Ok (inits, h')
    ∧ tril_store !! builder tril_cell = Some (tril_graph one_oslot [5])
    ∧ h' !! builder tril_cell
      = Some (with_one_init one_oslot [5] ∅ (tril_graph one_oslot [5]))
    ∧ h' !! builder tril_cell ≠ tril_store !! builder tril_cell.
Proof.
  eexists _, _. split.
  { apply (get_init_states_tril_run one_oslot tril_cell tril_store 2
             (tril_graph one_oslot [5]) [5]); reflexivity. }
  split; [reflexivity|]. split; [reflexivity|]. discriminate.
Qed.

Example tril_iclass_directive :
  get_init_states one_oslot tril_cell_iclass (Some 0) tril_store
  = Raise TypeError.
Proof.
  apply (get_init_states_tril_iclass one_oslot tril_cell_iclass tril_store 0
           (with_two_inits one_oslot [3; 4] (StaticBuilder "Main")) [5]);
    try reflexivity.
  exists 0. vm_compute. reflexivity.
Qed.

(** C3 as stated fails: a two-encoder cell constructed with three sizes
    has a [state_size] of three components, and two initial-state
    handles. *)
Lemma C3_three_sizes_two_handles :
  ∃ c h inits h',
    TwoEncodersCell_init one_oslot [3; 4; 5] (Some 0) 3 2 None ∅ main_store
    = Ok (c, h)
    ∧ state_size c = Ok [3; 4; 5]
    ∧ register_init_states one_oslot c None h = Ok (inits, h')
    ∧ length inits = 2
    ∧ length inits ≠ length [3; 4; 5].
Proof.
  eexists _, _, _, _. split.
  { apply (TwoEncodersCell_init_run one_oslot [3; 4; 5] 0
             (StaticBuilder "Main"));
      [apply one_oslot_positive | reflexivity]. }
  split; [reflexivity|]. split.
  { unfold register_init_states. simpl.
    eapply get_init_states_two_run; reflexivity. }
  split; [reflexivity | simpl; lia].
Qed.

Lemma C5_construction_side_effects_witness :
  ∃ c h',
    TwoEncodersCell_init one_oslot [3; 4] (Some 0) 3 2 None ∅ main_store
    = Ok (c, h')
    ∧ h' !! builder c = Some (encoder_graph one_oslot [3; 4])
    ∧ init_states c = Some [Auto 0; Auto 1].
Proof.
  destruct (C5_construction_side_effects one_oslot main_store 0
              (StaticBuilder "Main") [3; 4] 3 2 None ∅
              one_oslot_positive eq_refl)
    as [(c & h' & H1 & _ & _ & H4 & H5 & _) _].
  exists c, h'. split; [exact H1|]. split; [exact H4 | exact H5].
Defined.

(** The TriL constructor at a sample input, and the encoder it would have
    declared next. *)
Example tril_constructor_raises :
  NormalTriLCell_init one_oslot [5] 2 None ∅ main_store
  = Raise AttributeError
  ∧ NormalTriLCell_declare_cell_encoder one_oslot tril_cell
      (built_store ++ [StaticBuilder "Cell"])
    = Ok (Named "NormalTriLCell", tril_store).
Proof.
  split; [reflexivity|].
  apply (tril_declare_cell_encoder_run one_oslot tril_cell built_store [5]);
    reflexivity.
Qed.

Lemma C9_hard_coded_slots_witness :
  ∃ c h' pb cn,
    TwoEncodersCell_init one_oslot [3; 4] (Some 0) 4 2 None ∅ main_store
    = Ok (c, h')
    ∧ num_expected_inputs c = 4
    ∧ h' !! builder c = Some pb
    ∧ get_node (Named "Custom") pb = Ok (Custom cn)
    ∧ c_num_inputs cn = 3.
Proof.
  destruct (C9_hard_coded_slots one_oslot main_store 0
              (StaticBuilder "Main") [3; 4] 4 2 None ∅
              one_oslot_positive eq_refl (or_introl (Nat.neq_succ_diag_l 3)))
    as (c & h' & pb & cn & H1 & H2 & _ & _ & H5 & H6 & H7 & _).
  exists c, h', pb, cn. repeat (split; [assumption|]). assumption.
Defined.

Lemma C7_private_builders_witness :
  builder built_cell ≠ builder second_cell
  ∧ second_store !! builder second_cell
    = Some (encoder_graph one_oslot [3; 4])
  ∧ second_store !! builder built_cell
    = Some (encoder_graph one_oslot [3; 4]).
Proof.
  destruct (C7_private_builders one_oslot main_store
              (NewTwoEncodersCell [3; 4] (Some 0) 3 2 None ∅)
              (NewTwoEncodersCell [3; 4] (Some 0) 3 2 None ∅)
              built_cell built_store second_cell second_store
              one_oslot_positive (Nat.lt_0_succ 0) (Nat.lt_0_succ 1))
    as (H1 & _ & _ & _ & _ & _ & _ & H8 & H9 & _).
  - vm_compute. reflexivity.
  - vm_compute. reflexivity.
  - split; [exact H1|]. split; [exact H8|]. apply H9. discriminate.
Defined.

(** C7 as stated fails: the private builder of a cell can be passed as
    the external builder of another cell. The second cell then keeps the
    private builder of the first as its external builder, and its
    construction adds two input nodes to the step graph of the first. *)
Lemma C7_private_builder_as_external :
  construct one_oslot (NewTwoEncodersCell [3; 4] (Some 0) 3 2 None ∅)
    main_store
  = Ok (built_cell, built_store)
  ∧ construct one_oslot
      (NewTwoEncodersCell [3; 4] (Some (builder built_cell)) 3 2 None ∅)
      built_store
    = Ok (nested_cell, nested_store)
  ∧ ext_builder nested_cell = Some (builder built_cell)
  ∧ built_store !! builder built_cell
    = Some (encoder_graph one_oslot [3; 4])
  ∧ nested_store !! builder built_cell
    ≠ Some (encoder_graph one_oslot [3; 4])
  ∧ (∃ pb, nested_store !! builder built_cell = Some pb
           ∧ get_node (Auto 1) pb
             = Ok (init_node one_oslot (slice_to 1 [3; 4]) ∅)
           ∧ get_node (Auto 1) (@encoder_graph nat nat one_oslot [3; 4])
             = Raise (KeyError "<generated>")).
Proof.
  split; [vm_compute; reflexivity|]. split; [vm_compute; reflexivity|].
  split; [reflexivity|]. split; [reflexivity|]. split.
  - vm_compute. discriminate.
  - eexists. split; [reflexivity|]. split; vm_compute; reflexivity.
Qed.

Lemma C4_output_size_is_state_size_witness :
  output_size built_cell = state_size built_cell
  ∧ state_size built_cell = Ok [3; 4].
Proof.
  destruct (@C4_output_size_is_state_size nat nat one_oslot)
    as (H1 & H2 & _).
  split.
  - apply H1. discriminate.
  - apply (H2 (NewTwoEncodersCell [3; 4] (Some 0) 3 2 None ∅)
              main_store built_cell built_store).
    vm_compute. reflexivity.
Defined.

Lemma C6_abstract_contract_witness :
  state_size base_cell = Raise NotImplementedError
  ∧ output_size base_cell = Raise NotImplementedError
  ∧ get_init_states one_oslot base_cell (Some 0) main_store
    = Raise NotImplementedError.
Proof.
  destruct (C6_abstract_contract one_oslot base_cell (Some 0) main_store)
    as (H & _).
  apply H. reflexivity.
Defined.

(** C6 as stated fails for the two-encoder cell: its class body does not
    define [get_init_states], and the call on a constructed cell raises
    NotImplementedError. *)
Lemma C6_two_encoders_cell_inherits :
  construct one_oslot (NewTwoEncodersCell [3; 4] (Some 0) 3 2 None ∅)
    main_store
  = Ok (built_cell, built_store)
  ∧ ¬ is_Some (@own_get_init_states nat nat one_oslot (cls built_cell))
  ∧ get_init_states one_oslot built_cell (Some 0) built_store
    = Raise NotImplementedError.
Proof.
  split; [vm_compute; reflexivity|]. split; [|reflexivity].
  simpl. by intros [m Hm].
Qed.

(** ** Dataset preparation *)

Section strings.

Lemma string_length_app (a b : string) :
  String.length (a +:+ b) = String.length a + String.length b.
Proof. induction a as [|c a IH]; simpl; [done|]. by rewrite IH. Qed.

Lemma string_app_inj_r (a b t : string) : a +:+ t = b +:+ t → a = b.
Proof.
  revert b. induction a as [|c a IH]; intros [|c' b] H.
  - done.
  - apply (f_equal String.length) in H.
    rewrite !string_length_app in H. simpl in H. lia.
  - apply (f_equal String.length) in H.
    rewrite !string_length_app in H. simpl in H. lia.
  - injection H as -> H. f_equal. by apply IH.
Qed.

Lemma feed_name_inj (scope i1 i2 : string) :
  feed_name scope i1 = feed_name scope i2 → i1 = i2.
Proof.
  unfold feed_name. intros H.
  apply (inj (String.append scope)) in H.
  apply (inj (String.append "/")) in H.
  by apply string_app_inj_r in H.
Qed.

Lemma split_cons (sep : Ascii.ascii) (s : string) :
  ∃ w ws, split sep s = w :: ws.
Proof.
  destruct s as [|c s]; simpl; [eauto|].
  destruct (decide (c = sep)); [eauto|].
  destruct (split sep s); eauto.
Qed.

Lemma split_head (key : string) :
  split underscore key !! 0 = Some (prefix_of key).
Proof.
  induction key as [|c key IH]; simpl; [done|].
  destruct (decide (c = underscore)); [done|].
  destruct (split underscore key) as [|w ws]; [done|].
  simpl in *. by injection IH as ->.
Qed.

Lemma join_split (s : string) : join "_" (split underscore s) = s.
Proof.
  induction s as [|c s IH]; simpl; [done|].
  destruct (split_cons underscore s) as (w & ws & Hs).
  rewrite Hs in *. destruct (decide (c = underscore)) as [->|Hne].
  - change (join "_" ("" :: w :: ws))
      with (String underscore (join "_" (w :: ws))).
    by rewrite IH.
  - destruct ws as [|w' ws]; [simpl in *; by rewrite IH|].
    change (join "_" (String c w :: w' :: ws))
      with (String c (join "_" (w :: w' :: ws))).
    by rewrite IH.
Qed.

(** A key is its prefix, or its prefix, an underscore and the rest. *)
Lemma key_shape (key : string) :
  (split underscore key = [prefix_of key]
   ∧ key = prefix_of key ∧ inode_of key = "")
  ∨ key = prefix_of key +:+ "_" +:+ inode_of key.
Proof.
  pose proof (split_head key) as Hh. pose proof (join_split key) as Hj.
  unfold inode_of, slice_from.
  destruct (split underscore key) as [|w [|w' ws]]; simplify_eq/=.
  - left. by rewrite <- Hh.
  - right. by rewrite <- Hh.
Qed.

Lemma split_prefixed (p rest : string) :
  has_underscore p = false →
  split underscore (p +:+ "_" +:+ rest) = p :: split underscore rest.
Proof.
  induction p as [|c p IH]; intros Hp.
  - done.
  - simpl in Hp. apply orb_false_iff in Hp as [Hc Hp].
    apply bool_decide_eq_false in Hc.
    change (String c p +:+ "_" +:+ rest)
      with (String c (p +:+ "_" +:+ rest)).
    simpl. rewrite decide_False by done. by rewrite IH.
Qed.

Lemma prefixed_key (p inode : string) :
  has_underscore p = false →
  prefix_of (p +:+ "_" +:+ inode) = p
  ∧ inode_of (p +:+ "_" +:+ inode) = inode.
Proof.
  intros Hp. pose proof (split_head (p +:+ "_" +:+ inode)) as Hh.
  unfold inode_of. rewrite split_prefixed in * by done.
  simpl in Hh. injection Hh as <-. split; [done|].
  unfold slice_from. simpl. apply join_split.
Qed.

Lemma prefix_no_underscore (key : string) :
  has_underscore (prefix_of key) = false.
Proof.
  induction key as [|c key IH]; simpl; [done|].
  destruct (decide (c = underscore)); simpl; [done|].
  rewrite IH. by rewrite bool_decide_eq_false_2.
Qed.

End strings.

Section prepare_datasets.

Context {V : Type}.
Implicit Types (acc : @datasets V) (dataset ds : list (string * V)).

Lemma place_unfold scope acc key v :
  place scope acc key v
  = if decide (prefix_of key = "train") then
      Ok (Datasets
            (<[feed_name scope (inode_of key) := v]> (train_dataset acc))
            (valid_dataset acc) (test_dataset acc))
    else if decide (prefix_of key = "valid") then
      Ok (Datasets (train_dataset acc)
            (<[feed_name scope (inode_of key) := v]> (valid_dataset acc))
            (test_dataset acc))
    else if decide (prefix_of key = "test") then
      Ok (Datasets (train_dataset acc) (valid_dataset acc)
            (<[feed_name scope (inode_of key) := v]> (test_dataset acc)))
    else Raise (KeyError key).
Proof. unfold place, index. by rewrite split_head. Qed.

Lemma place_Ok scope acc key v acc' :
  place scope acc key v = Ok acc' →
  allowed (prefix_of key)
  ∧ ∀ p t, stored p t acc'
           = if decide (p = prefix_of key
                        ∧ t = feed_name scope (inode_of key))
             then Some v else stored p t acc.
Proof.
  rewrite place_unfold. unfold allowed.
  repeat case_decide; intros Hpl; simplify_eq; (split; [tauto|]);
    intros p t;
    unfold stored, dataset_for; simpl;
    repeat case_decide; destruct_and?; simplify_eq/=;
    try done; try (by rewrite lookup_insert_eq);
    try (rewrite lookup_insert_ne; [done|naive_solver]);
    congruence.
Qed.

Lemma place_allowed scope acc key v :
  allowed (prefix_of key) → ∃ acc', place scope acc key v = Ok acc'.
Proof.
  rewrite place_unfold. unfold allowed.
  intros [-> | [-> | ->]]; simpl; eauto.
Qed.

Lemma place_Raise scope acc key v e :
  place scope acc key v = Raise e →
  e = KeyError key ∧ ¬ allowed (prefix_of key).
Proof.
  rewrite place_unfold. unfold allowed.
  repeat case_decide; intros Hpl; simplify_eq. split; [done | tauto].
Qed.

Lemma fill_Ok scope acc ds :
  (∀ key, key ∈ ds.*1 → allowed (prefix_of key)) →
  ∃ acc', fill scope acc ds = Ok acc'.
Proof.
  revert acc. induction ds as [|[key v] ds IH]; intros acc Hall; simpl.
  - eauto.
  - destruct (place_allowed scope acc key v) as [acc1 ->].
    { apply Hall. simpl. left. }
    simpl. apply IH. intros k Hk. apply Hall. simpl. by right.
Qed.

Lemma fill_Raise scope acc ds e :
  fill scope acc ds = Raise e →
  ∃ key, e = KeyError key ∧ key ∈ ds.*1 ∧ ¬ allowed (prefix_of key).
Proof.
  revert acc. induction ds as [|[key v] ds IH]; intros acc; simpl; [done|].
  destruct (place scope acc key v) as [acc1|e1] eqn:Hp; simpl.
  - intros (k & ? & ? & ?)%IH. exists k. split_and!; [done| |done].
    by right.
  - intros [= <-]. apply place_Raise in Hp as [-> Hn].
    exists key. split_and!; [done| |done]. left.
Qed.

Lemma fill_allowed scope acc ds acc' :
  fill scope acc ds = Ok acc' →
  ∀ key, key ∈ ds.*1 → allowed (prefix_of key).
Proof.
  revert acc. induction ds as [|[key v] ds IH]; intros acc; simpl.
  - intros _ key Hk. by apply elem_of_nil in Hk.
  - destruct (place scope acc key v) as [acc1|e1] eqn:Hp; simpl; [|done].
    intros Hf k Hk. apply elem_of_cons in Hk as [->|Hk].
    + by apply place_Ok in Hp as [? _].
    + by eapply IH.
Qed.

(** Entries that go elsewhere leave a slot as it was. *)
Lemma fill_frame scope acc ds acc' p t :
  fill scope acc ds = Ok acc' →
  (∀ key, key ∈ ds.*1 →
     ¬ (p = prefix_of key ∧ t = feed_name scope (inode_of key))) →
  stored p t acc' = stored p t acc.
Proof.
  revert acc. induction ds as [|[key v] ds IH]; intros acc; simpl.
  - by intros [= <-].
  - destruct (place scope acc key v) as [acc1|e1] eqn:Hp; simpl; [|done].
    intros Hf Hno. rewrite (IH acc1 Hf).
    + apply place_Ok in Hp as [_ ->]. rewrite decide_False; [done|].
      apply Hno. simpl. left.
    + intros k Hk. apply Hno. simpl. by right.
Qed.

(** The last entry that goes to a slot is the one found there. *)
Lemma fill_last scope acc ds1 key v ds2 acc' :
  fill scope acc (ds1 ++ (key, v) :: ds2) = Ok acc' →
  (∀ key', key' ∈ ds2.*1 →
     ¬ (prefix_of key = prefix_of key'
        ∧ feed_name scope (inode_of key)
          = feed_name scope (inode_of key'))) →
  stored (prefix_of key) (feed_name scope (inode_of key)) acc' = Some v.
Proof.
  revert acc. induction ds1 as [|[k0 v0] ds1 IH]; intros acc; simpl.
  - destruct (place scope acc key v) as [acc1|e1] eqn:Hp; simpl; [|done].
    intros Hf Hno. rewrite (fill_frame _ _ _ _ _ _ Hf Hno).
    apply place_Ok in Hp as [_ ->]. by rewrite decide_True.
  - destruct (place scope acc k0 v0) as [acc1|e1]; simpl; [|done].
    apply IH.
Qed.

Lemma prepare_datasets_Ok scope ds r :
  prepare_datasets scope ds = Ok r →
  ∃ acc, fill scope (Datasets ∅ ∅ ∅) ds = Ok acc
         ∧ dom r = {["train"; "valid"; "test"]}
         ∧ ∀ p t, r !! p ≫= (.!! t) = stored p t acc.
Proof.
  unfold prepare_datasets.
  destruct (fill scope (Datasets ∅ ∅ ∅) ds) as [acc|]; [|done].
  intros [= <-]. exists acc. split_and!; [done| |].
  - rewrite !dom_insert_L, dom_empty_L. set_solver.
  - intros p t. unfold stored, dataset_for.
    repeat case_decide; simplify_eq; by simplify_map_eq.
Qed.

(** C8, as amended: [prepare_datasets] raises exactly if some key has a
    prefix other than train, valid and test, and then it raises a
    KeyError for such a key; otherwise it returns a dictionary with
    exactly the keys train, valid and test, in which the entry of a key
    [p_inode] is found in the dictionary of [p] under the scope, a
    slash, [inode] and [_main:0], unless [inode] is empty and the bare
    key [p] comes later in the dataset. *)
Theorem C8_prepare_datasets scope dataset :
  NoDup dataset.*1 →
  ((∃ e, prepare_datasets scope dataset = Raise e)
   ↔ ∃ key, key ∈ dataset.*1 ∧ ¬ allowed (prefix_of key))
  ∧ (∀ e, prepare_datasets scope dataset = Raise e →
       ∃ key, e = KeyError key ∧ key ∈ dataset.*1
              ∧ ¬ allowed (prefix_of key))
  ∧ ((∀ key, key ∈ dataset.*1 → allowed (prefix_of key)) →
     ∃ r, prepare_datasets scope dataset = Ok r
          ∧ dom r = {["train"; "valid"; "test"]}
          ∧ ∀ ds1 p inode v ds2,
              dataset = ds1 ++ (p +:+ "_" +:+ inode, v) :: ds2 →
              has_underscore p = false →
              (inode = "" → p ∉ ds2.*1) →
              r !! p ≫= (.!! feed_name scope inode) = Some v).
Proof.
  intros Hnd.
  assert (Hraise : ∀ e, prepare_datasets scope dataset = Raise e →
            ∃ key, e = KeyError key ∧ key ∈ dataset.*1
                   ∧ ¬ allowed (prefix_of key)).
  { intros e. unfold prepare_datasets.
    destruct (fill scope (Datasets ∅ ∅ ∅) dataset) as [acc|e'] eqn:Hf;
      [done|].
    intros [= <-]. by eapply fill_Raise. }
  split_and!; [split| done |].
  - intros [e (key & _ & ? & ?)%Hraise]. eauto.
  - intros (key & Hk & Hbad).
    destruct (prepare_datasets scope dataset) as [r|e] eqn:Hp; [|eauto].
    apply prepare_datasets_Ok in Hp as (acc & Hf & _).
    destruct Hbad. by eapply fill_allowed.
  - intros Hall.
    destruct (fill_Ok scope (Datasets ∅ ∅ ∅) dataset Hall) as [acc Hf].
    destruct (prepare_datasets scope dataset) as [r|e] eqn:Hp.
    2:{ unfold prepare_datasets in Hp. by rewrite Hf in Hp. }
    exists r. split; [done|].
    apply prepare_datasets_Ok in Hp as (acc' & Hf' & Hdom & Hst).
    split; [done|]. rewrite Hf in Hf'. injection Hf' as <-.
    intros ds1 p inode v ds2 -> Hp Hbare. rewrite Hst.
    destruct (prefixed_key p inode Hp) as [Hpre Hin].
    pose proof (fill_last scope _ ds1 (p +:+ "_" +:+ inode) v ds2 acc Hf)
      as Hlast.
    rewrite Hpre, Hin in Hlast. apply Hlast.
    intros key' Hk' [-> Hfeed%feed_name_inj].
    rewrite fmap_app, fmap_cons in Hnd. simpl in Hnd.
    apply NoDup_app in Hnd as (_ & _ & Hnd).
    apply NoDup_cons in Hnd as [Hnot _].
    destruct (key_shape key') as [(_ & Hkey & Hi) | Hkey].
    + apply Hbare; [congruence|]. by rewrite Hkey in Hk'.
    + apply Hnot. by rewrite Hfeed, <- Hkey.
Qed.

End prepare_datasets.

Lemma C8_prepare_datasets_witness :
  ∃ r, prepare_datasets "VIND"
         [("train_Observation", 1); ("valid_Observation", 2)] = Ok r
       ∧ r !! "train" ≫= (.!! "VIND/Observation_main:0") = Some 1.
Proof.
  assert (Hnd : NoDup [("train_Observation", 1); ("valid_Observation", 2)].*1).
  { simpl. apply NoDup_cons. split; [|apply NoDup_singleton].
    intros Hin%list_elem_of_singleton. discriminate. }
  destruct (C8_prepare_datasets "VIND"
              [("train_Observation", 1); ("valid_Observation", 2)] Hnd)
    as (_ & _ & H).
  destruct H as (r & Hr & _ & Hplace).
  { intros key Hk. simpl in Hk. unfold allowed.
    apply elem_of_cons in Hk as [->|Hk]; [by left|].
    apply list_elem_of_singleton in Hk as ->. right. by left. }
  exists r. split; [exact Hr|].
  apply (Hplace [] "train" "Observation" 1 [("valid_Observation", 2)]).
  - reflexivity.
  - reflexivity.
  - discriminate.
Defined.

(** C8 as stated fails where a dataset holds the key [train_] and, after
    it, the bare key [train]: no prefix is refused, both entries go to the
    same feed name, and the entry of [train_] is not the one found
    there. *)
Lemma C8_bare_key_overwrites :
  ∃ r, prepare_datasets "S" [("train" +:+ "_" +:+ "", 1); ("train", 2)] = Ok r
       ∧ NoDup [("train" +:+ "_" +:+ "", 1); ("train", 2)].*1
       ∧ prefix_of ("train" +:+ "_" +:+ "") = "train"
       ∧ prefix_of "train" = "train"
       ∧ r !! "train" ≫= (.!! feed_name "S" "") = Some 2
       ∧ r !! "train" ≫= (.!! feed_name "S" "") ≠ Some 1.
Proof.
  exists (<["test" := ∅]> (<["valid" := ∅]>
            (<["train" := {["S/_main:0" := 2]}]> ∅))).
  split_and!.
  - vm_compute. reflexivity.
  - simpl. apply NoDup_cons. split; [|apply NoDup_singleton].
    intros Hin%list_elem_of_singleton. discriminate.
  - reflexivity.
  - reflexivity.
  - vm_compute. reflexivity.
  - vm_compute. discriminate.
Qed.

(** * Further properties of the cells *)

Lemma unpack2_Raise (v : value) (e : exn) :
  unpack2 v = Raise e
  ↔ (bare v ∧ e = TypeError)
    ∨ (∃ items, v = Tuple items ∧ length items ≠ 2 ∧ e = ValueError).
Proof.
  split.
  - destruct v as [| id |[|x [|y [|z items]]]]; intros H; cbv in H;
      simplify_eq; (by left) || (right; eexists; split_and!; simpl; done).
  - intros [[Hb ->] | (items & -> & Hl & ->)].
    + by destruct v.
    + by destruct items as [|x [|y [|z items]]].
Qed.

(** X1: building the slot map never raises, so the two-encoder cell
    raises exactly when its encoder raises, with the same exception, or
    when the encoder returns something that is not a pair: a TypeError for
    a value that is no sequence, a ValueError for a sequence of another
    length. *)
Theorem TwoEncodersCell_call_raises_iff
    (enc : gmap nat value → result value) (inputs state : value) (e : exn) :
  TwoEncodersCell_call enc inputs state = Raise e
  ↔ ∃ m, islot_states inputs state = Ok m
         ∧ (enc m = Raise e
            ∨ (∃ out, enc m = Ok out ∧ bare out ∧ e = TypeError)
            ∨ (∃ items, enc m = Ok (Tuple items) ∧ length items ≠ 2
                        ∧ e = ValueError)).
Proof.
  destruct (islot_states_concat inputs state) as (m & Hm & _).
  unfold TwoEncodersCell_call. rewrite Hm. simpl. split.
  - intros H. exists m. split; [done|].
    destruct (enc m) as [out|e'] eqn:Henc; simpl in H; [|left; congruence].
    right. destruct (unpack2 out) as [[a b]|e'] eqn:Hun; simpl in H; [done|].
    injection H as ->. apply unpack2_Raise in Hun as [[Hb ->]|(items & -> & Hl & ->)].
    + left. eauto.
    + right. eauto.
  - intros (m' & [= <-] & [Henc | [(out & Henc & Hb & ->) | (items & Henc & Hl & ->)]]);
      rewrite Henc; simpl; [done| |].
    + assert (unpack2 out = Raise TypeError) as ->; [|done].
      apply unpack2_Raise. by left.
    + assert (unpack2 (Tuple items) = Raise ValueError) as ->; [|done].
      apply unpack2_Raise. right. eauto.
Qed.

(** X2: when the state returned by one call is passed to the next call,
    the slot map of the next call holds the components of the first
    encoder output, then the inputs. If that output is a bare value the
    state takes slot 0 only and the inputs start at slot 1, however many
    components the state of the first call had. *)
Theorem TwoEncodersCell_call_next_slots
    (enc : gmap nat value → result value)
    (inputs state out new_state inputs' : value) :
  TwoEncodersCell_call enc inputs state = Ok (out, new_state) →
  ∃ m', islot_states inputs' new_state = Ok m'
        ∧ (∀ k, m' !! k = (as_sequence out ++ as_sequence inputs') !! k)
        ∧ (bare out →
           m' !! 0 = Some out
           ∧ ∀ j, m' !! (1 + j) = as_sequence inputs' !! j).
Proof.
  intros Hcall.
  assert (new_state = out) as ->.
  { unfold TwoEncodersCell_call in Hcall.
    destruct (islot_states inputs state) as [m|]; [|done]. simpl in Hcall.
    destruct (enc m) as [o|]; [|done]. simpl in Hcall.
    destruct (unpack2 o) as [[a b]|]; [|done]. simpl in Hcall. congruence. }
  destruct (islot_states_concat inputs' out) as (m' & Hm' & Hk).
  exists m'. split_and!; [done..|].
  intros Hb. split.
  - rewrite Hk. by destruct out.
  - intros j. rewrite Hk. by destruct out.
Qed.

Lemma TwoEncodersCell_call_next_slots_witness :
  ∃ m', islot_states (Tensor 3) (Tensor 7) = Ok m'
        ∧ m' !! 0 = Some (Tensor 7)
        ∧ m' !! 1 = Some (Tensor 3)
        ∧ m' !! 2 = None.
Proof.
  destruct (TwoEncodersCell_call_next_slots two_outputs (Tensor 0)
              (Tuple [Tensor 1; Tensor 2]) (Tensor 7) (Tensor 7) (Tensor 3))
    as (m' & Hm' & Hk & Hb).
  - unfold TwoEncodersCell_call.
    destruct (islot_states_concat (Tensor 0) (Tuple [Tensor 1; Tensor 2]))
      as (m & -> & _).
    reflexivity.
  - exists m'. split; [exact Hm'|].
    destruct (Hb I) as [H0 Hj]. split; [exact H0|].
    split; [apply (Hj 0) | apply (Hj 1)].
Defined.

Section more_construction.

Context {dim directive : Type}.
Variable class_oslots : node_class → nat.
Implicit Types (h : store dim directive) (c self : @cell dim directive).
Implicit Types b pb : builder_of (@entry dim directive).

(** X3: a two-encoder cell cannot be constructed without an external
    builder: with [None] the constructor raises AttributeError. On a
    TriL instance the registration of initial states needs a builder
    from the caller: with [None] it raises AttributeError, whatever the
    sizes and the directives of the instance are. *)
Theorem cells_without_builder sizes ni no name dirs h :
  0 < class_oslots DefaultInnerNode →
  TwoEncodersCell_init class_oslots sizes None ni no name dirs h
  = Raise AttributeError
  ∧ ∀ c h', cls c = NormalTriLCell →
      get_init_states class_oslots c None h' = Raise AttributeError.
Proof.
  intros Hos. split; [by apply TwoEncodersCell_init_None|].
  intros c h' Hk. by apply get_init_states_tril_None.
Qed.

Lemma second_shape_agrees (sizes : list dim) :
  slice_from 1 sizes = slice 1 2 sizes ↔ length sizes ≤ 2.
Proof.
  unfold slice_from, slice.
  destruct sizes as [|s1 [|s2 [|s3 sizes]]]; simpl; split;
    (done || lia || (intros; simplify_eq/=; lia)).
Qed.

(** X4: in a constructed two-encoder cell the node registered for the
    first initial state has the shape of the inner node behind state slot
    0; the node registered for the second initial state has the shape of
    the inner node behind state slot 1 exactly when the cell was given at
    most two sizes (the encoder is built from [state_size[1:2]], the
    initial state from [state_dims[1:]]). *)
Theorem initial_state_shapes h e b sizes ni no name dirs :
  0 < class_oslots DefaultInnerNode →
  h !! e = Some b →
  ∃ c h' b' pb cn i1 i2 n1 n2 in1 in2 m1 m2,
    TwoEncodersCell_init class_oslots sizes (Some e) ni no name dirs h
    = Ok (c, h')
    ∧ init_states c = Some [i1; i2]
    ∧ h' !! e = Some b'
    ∧ get_node i1 b' = Ok (Plain n1)
    ∧ get_node i2 b' = Ok (Plain n2)
    ∧ h' !! builder c = Some pb
    ∧ get_node (Named "Custom") pb = Ok (Custom cn)
    ∧ c_islots cn !! 0 = Some (in1, 0)
    ∧ c_islots cn !! 1 = Some (in2, 0)
    ∧ get_node in1 (c_inner cn) = Ok m1
    ∧ get_node in2 (c_inner cn) = Ok m2
    ∧ n_shape n1 = n_shape m1
    ∧ (n_shape n2 = n_shape m2 ↔ length sizes ≤ 2).
Proof.
  intros Hos Hb. pose proof (lookup_lt_Some _ _ _ Hb) as Hlt.
  destruct (with_two_inits_nodes class_oslots sizes b) as (N1 & N2 & _).
  eexists _, _, _, (encoder_graph class_oslots sizes), _, _, _, _, _,
    (Auto 0), (Auto 1), _, _.
  split; [by apply (TwoEncodersCell_init_run _ _ e b)|].
  split; [reflexivity|]. split.
  { apply list_lookup_insert_eq. rewrite length_app. lia. }
  split; [exact N1|]. split; [exact N2|]. split.
  { simpl. rewrite list_lookup_insert_ne by lia.
    by rewrite lookup_app_r, Nat.sub_diag by lia. }
  split; [reflexivity|]. split; [reflexivity|]. split; [reflexivity|].
  split; [reflexivity|]. split; [reflexivity|].
  split; [reflexivity|]. simpl. apply second_shape_agrees.
Qed.

End more_construction.

Lemma cells_without_builder_witness :
  TwoEncodersCell_init one_oslot [3; 4] None 3 2 None ∅ main_store
  = Raise AttributeError.
Proof.
  destruct (cells_without_builder one_oslot [3; 4] 3 2 None ∅ main_store
              one_oslot_positive) as [H _].
  exact H.
Defined.

Lemma initial_state_shapes_witness :
  ∃ c h',
    TwoEncodersCell_init one_oslot [3; 4; 5] (Some 0) 3 2 None ∅ main_store
    = Ok (c, h').
Proof.
  destruct (initial_state_shapes one_oslot main_store 0
              (StaticBuilder "Main") [3; 4; 5] 3 2 None ∅
              one_oslot_positive eq_refl)
    as (c & h' & b' & pb & cn & i1 & i2 & n1 & n2 & in1 & in2 & m1 & m2
        & H & _).
  exists c, h'. exact H.
Defined.

(** * Further properties of [Model] *)

Section feed_dictionaries.

Context {V : Type}.
Implicit Types (acc : @datasets V) (dataset ds : list (string * V)).

(** Storing entries into a dictionary under their feed names. *)
Lemma feed_fold_lookup scope (d : gmap string V) ds t v :
  foldl (λ dset kv, <[feed_name scope kv.1 := kv.2]> dset) d ds !! t = Some v →
  d !! t = Some v ∨ ∃ k, (k, v) ∈ ds ∧ t = feed_name scope k.
Proof.
  revert d. induction ds as [|[k0 v0] ds IH]; intros d; simpl; [by left|].
  intros [Hd | (k & Hk & ->)]%IH.
  - destruct (decide (feed_name scope k0 = t)) as [<-|Hne].
    + rewrite lookup_insert_eq in Hd. injection Hd as ->.
      right. exists k0. split; [left|done].
    + rewrite lookup_insert_ne in Hd by done. by left.
  - right. exists k. split; [by right|done].
Qed.

Lemma feed_fold_last scope (d : gmap string V) ds1 k v ds2 :
  k ∉ ds2.*1 →
  foldl (λ dset kv, <[feed_name scope kv.1 := kv.2]> dset) d
        (ds1 ++ (k, v) :: ds2) !! feed_name scope k = Some v.
Proof.
  intros Hk. rewrite foldl_app. simpl.
  set (d1 := <[feed_name scope k := v]> _).
  assert (Hd1 : d1 !! feed_name scope k = Some v) by apply lookup_insert_eq.
  clearbody d1. revert d1 Hd1.
  induction ds2 as [|[k2 v2] ds2 IH]; intros d1 Hd1; simpl; [done|].
  simpl in Hk. apply not_elem_of_cons in Hk as [Hne Hk].
  apply IH; [done|]. rewrite lookup_insert_ne; [done|].
  intros Heq%feed_name_inj. congruence.
Qed.

Lemma feed_fold_size scope ds :
  NoDup ds.*1 →
  base.size (foldl (λ dset kv, <[feed_name scope kv.1 := kv.2]> dset)
          (∅ : gmap string V) ds)
  = length ds.
Proof.
  induction ds as [|[k v] ds IH] using rev_ind; intros Hnd; [done|].
  rewrite fmap_app in Hnd. apply NoDup_app in Hnd as (Hnd & Hdis & _).
  rewrite foldl_app, length_app. simpl.
  rewrite map_size_insert_None; [rewrite IH by done; lia|].
  destruct (foldl _ ∅ ds !! feed_name scope k) as [v'|] eqn:Hl; [|done].
  apply feed_fold_lookup in Hl as [Hl | (k' & Hk' & Heq%feed_name_inj)];
    [by rewrite lookup_empty in Hl|].
  subst k'. destruct (Hdis k).
  - apply list_elem_of_fmap. by exists (k, v').
  - simpl. left.
Qed.

(** X5: [prepare_dataset] never refuses a key: it renames every key to
    the scope, a slash, the key and [_main:0], one to one. Each value is
    found under the feed name of its key, every entry of the result comes
    from an entry of the dataset, and the result has as many entries as
    the dataset. *)
Theorem prepare_dataset_renames scope dataset :
  NoDup dataset.*1 →
  (∀ k v, (k, v) ∈ dataset →
     prepare_dataset scope dataset !! (scope +:+ "/" +:+ k +:+ "_main:0")
     = Some v)
  ∧ (∀ t v, prepare_dataset scope dataset !! t = Some v →
       ∃ k, (k, v) ∈ dataset ∧ t = scope +:+ "/" +:+ k +:+ "_main:0")
  ∧ base.size (prepare_dataset scope dataset) = length dataset.
Proof.
  intros Hnd. split_and!.
  - intros k v Hin. apply list_elem_of_split in Hin as (ds1 & ds2 & ->).
    apply (feed_fold_last scope ∅ ds1 k v ds2).
    rewrite fmap_app, fmap_cons in Hnd. simpl in Hnd.
    apply NoDup_app in Hnd as (_ & _ & Hnd).
    by apply NoDup_cons in Hnd as [? _].
  - intros t v Hl.
    apply (feed_fold_lookup scope ∅) in Hl as [Hl | Hl]; [|done].
    by rewrite lookup_empty in Hl.
  - by apply feed_fold_size.
Qed.

Lemma fill_entries scope acc ds acc' p :
  fill scope acc ds = Ok acc' →
  dataset_for p acc'
  = (λ d, foldl (λ dset kv, <[feed_name scope kv.1 := kv.2]> dset) d
            (entries_of p ds)) <$> dataset_for p acc.
Proof.
  revert acc. induction ds as [|[k v] ds IH]; intros acc; simpl.
  - intros [= <-]. by destruct (dataset_for p acc).
  - destruct (place scope acc k v) as [acc1|] eqn:Hp; simpl; [|done].
    intros Hf. rewrite (IH _ Hf). clear IH Hf.
    rewrite place_unfold in Hp. unfold dataset_for in *.
    destruct (decide (prefix_of k = p)) as [<-|Hne].
    + repeat case_decide; simplify_eq/=; done.
    + repeat case_decide; simplify_eq/=; try done.
Qed.

Lemma prepare_datasets_entries scope ds r p :
  prepare_datasets scope ds = Ok r →
  allowed p →
  r !! p = Some (prepare_dataset scope (entries_of p ds)).
Proof.
  unfold prepare_datasets.
  destruct (fill scope (Datasets ∅ ∅ ∅) ds) as [acc|] eqn:Hf; [|done].
  intros [= <-] Hp. pose proof (fill_entries _ _ _ _ p Hf) as He.
  unfold dataset_for, prepare_dataset, feed_name in *.
  destruct Hp as [-> | [-> | ->]]; repeat case_decide; simplify_eq/=;
    rewrite <- He; repeat (rewrite lookup_insert_ne by done);
    by rewrite lookup_insert_eq.
Qed.

(** X6: each split returned by [prepare_datasets] is [prepare_dataset]
    applied to the entries of that prefix with the prefix and its
    underscore taken off their keys. *)
Theorem prepare_datasets_by_prefix scope dataset r :
  prepare_datasets scope dataset = Ok r →
  r !! "train" = Some (prepare_dataset scope (entries_of "train" dataset))
  ∧ r !! "valid" = Some (prepare_dataset scope (entries_of "valid" dataset))
  ∧ r !! "test" = Some (prepare_dataset scope (entries_of "test" dataset)).
Proof.
  intros Hr. unfold allowed in *.
  split_and!; apply (prepare_datasets_entries _ _ _ _ Hr); unfold allowed;
    tauto.
Qed.

(** X7: [prepare_datasets] puts nothing into a split that does not
    belong there: every entry of the split of a prefix comes from an entry
    of the dataset whose key has that prefix, and is stored under the feed
    name of the rest of that key. *)
Theorem prepare_datasets_sound scope dataset r p d t v :
  prepare_datasets scope dataset = Ok r →
  r !! p = Some d →
  d !! t = Some v →
  ∃ k, (k, v) ∈ dataset
       ∧ prefix_of k = p
       ∧ t = scope +:+ "/" +:+ inode_of k +:+ "_main:0".
Proof.
  intros Hr Hp Ht.
  apply prepare_datasets_Ok in Hr as (acc & Hf & _ & Hst).
  specialize (Hst p t). rewrite Hp in Hst. simpl in Hst.
  rewrite Ht in Hst. symmetry in Hst. unfold stored in Hst.
  rewrite (fill_entries _ _ _ _ p Hf) in Hst.
  unfold dataset_for in Hst. simpl in Hst.
  assert (Hfold : foldl (λ dset kv, <[feed_name scope kv.1 := kv.2]> dset)
            (∅ : gmap string V) (entries_of p dataset) !! t = Some v).
  { repeat case_decide; simplify_eq/=; done. }
  apply feed_fold_lookup in Hfold as [Hl | (i & Hi & ->)];
    [by rewrite lookup_empty in Hl|].
  unfold entries_of in Hi. apply list_elem_of_omap in Hi as ([k v'] & Hin & Hsome).
  simpl in Hsome. case_decide; simplify_eq/=. by exists k.
Qed.

End feed_dictionaries.

Section directives.

Context {V : Type}.
Implicit Types ds directives : list (string * V).

Lemma extract_fold_lookup prefix (d : gmap string V) ds t v :
  foldl (λ d kv, if startswith kv.1 prefix
                 then <[inode_of kv.1 := kv.2]> d else d) d ds !! t = Some v →
  d !! t = Some v
  ∨ ∃ k, (k, v) ∈ ds ∧ startswith k prefix = true ∧ t = inode_of k.
Proof.
  revert d. induction ds as [|[k0 v0] ds IH]; intros d; simpl; [by left|].
  intros [Hd | (k & Hk & Hs & ->)]%IH.
  - destruct (startswith k0 prefix) eqn:Hs; [|by left].
    destruct (decide (inode_of k0 = t)) as [<-|Hne].
    + rewrite lookup_insert_eq in Hd. injection Hd as ->.
      right. exists k0. split_and!; [left|done..].
    + rewrite lookup_insert_ne in Hd by done. by left.
  - right. exists k. split_and!; [by right|done..].
Qed.

Lemma extract_fold_keep prefix (d : gmap string V) ds t v :
  d !! t = Some v →
  (∀ k, k ∈ ds.*1 → startswith k prefix = true → inode_of k ≠ t) →
  foldl (λ d kv, if startswith kv.1 prefix
                 then <[inode_of kv.1 := kv.2]> d else d) d ds !! t = Some v.
Proof.
  revert d. induction ds as [|[k0 v0] ds IH]; intros d Hd Hno; simpl; [done|].
  apply IH.
  - destruct (startswith k0 prefix) eqn:Hs; [|done].
    rewrite lookup_insert_ne; [done|]. apply Hno; [simpl; left|done].
  - intros k Hk. apply Hno. simpl. by right.
Qed.

(** X8: [extract_dirs] makes nothing up: every entry of its result comes
    from a directive whose key starts with the prefix, and is stored under
    the part of that key after its first underscore. *)
Theorem extract_dirs_sound directives prefix t v :
  extract_dirs directives prefix !! t = Some v →
  ∃ k, (k, v) ∈ directives
       ∧ startswith k prefix = true
       ∧ t = inode_of k.
Proof.
  intros Hl. apply (extract_fold_lookup prefix ∅) in Hl as [Hl|Hl]; [|done].
  by rewrite lookup_empty in Hl.
Qed.

Lemma startswith_app (p s : string) : startswith (p +:+ s) p = true.
Proof.
  induction p as [|c p IH]; [change ("" +:+ s) with s; by destruct s|].
  change (String c p +:+ s) with (String c (p +:+ s)). simpl.
  by rewrite bool_decide_eq_true_2.
Qed.

(** X9: [extract_dirs] keeps the directive [p_rest] under [rest] whenever
    its key starts with the prefix asked for, as it does when the prefix
    is [p], unless a later directive that also starts with the prefix has
    the same part after its first underscore. *)
Theorem extract_dirs_places directives prefix ds1 p rest v ds2 :
  directives = ds1 ++ (p +:+ "_" +:+ rest, v) :: ds2 →
  has_underscore p = false →
  startswith (p +:+ "_" +:+ rest) prefix = true →
  (∀ k, k ∈ ds2.*1 → startswith k prefix = true → inode_of k ≠ rest) →
  extract_dirs directives prefix !! rest = Some v
  ∧ startswith (p +:+ "_" +:+ rest) p = true.
Proof.
  intros -> Hp Hs Hno. split; [|apply startswith_app].
  destruct (prefixed_key p rest Hp) as [_ Hin].
  change (extract_dirs ?ds prefix)
    with (foldl (λ (d : gmap string V) kv,
                   if startswith kv.1 prefix
                   then <[inode_of kv.1 := kv.2]> d else d) ∅ ds).
  rewrite foldl_app. cbn [foldl fst snd]. rewrite Hs, Hin.
  apply (extract_fold_keep prefix); [apply lookup_insert_eq | done].
Qed.

End directives.

Section comprehensions.

Context {A B : Type}.
Implicit Types (f : A → result B) (l : list A).

Lemma for_each_Forall2 f l ys :
  for_each f l = Ok ys ↔ Forall2 (λ x y, f x = Ok y) l ys.
Proof.
  revert ys. induction l as [|x l IH]; intros ys; simpl.
  - split; [by intros [= <-]; constructor | by inversion 1].
  - destruct (f x) as [y|e] eqn:Hx; simpl.
    + destruct (for_each f l) as [ys'|e] eqn:Hl; simpl.
      * split.
        -- intros [= <-]. constructor; [done|]. by apply IH.
        -- inversion 1 as [|? y' ? ys'' Hy Hys]; subst.
           apply IH in Hys. congruence.
      * split; [done|]. inversion 1 as [|? y' ? ys'' Hy Hys]; subst.
        by apply IH in Hys.
    + split; [done|]. inversion 1; congruence.
Qed.

Lemma for_each_fmap f (g : A → B) l :
  (∀ x, x ∈ l → f x = Ok (g x)) → for_each f l = Ok (g <$> l).
Proof.
  induction l as [|x l IH]; intros Hf; simpl; [done|].
  rewrite Hf by left. simpl. rewrite IH; [done|].
  intros y Hy. apply Hf. by right.
Qed.

Lemma for_each_exists f l :
  (∀ x, x ∈ l → ∃ y, f x = Ok y) → ∃ ys, for_each f l = Ok ys.
Proof.
  induction l as [|x l IH]; intros Hf; simpl; [eauto|].
  destruct (Hf x) as [y ->]; [left|]. simpl.
  destruct IH as [ys ->]; [|simpl; eauto].
  intros z Hz. apply Hf. by right.
Qed.

(** The first element that fails decides the exception. *)
Lemma for_each_Raise f l e :
  for_each f l = Raise e
  ↔ ∃ l1 x l2, l = l1 ++ x :: l2
               ∧ (∀ y, y ∈ l1 → ∃ z, f y = Ok z)
               ∧ f x = Raise e.
Proof.
  induction l as [|x l IH]; simpl.
  - split; [done|]. intros ([|??] & ? & ? & ? & _); done.
  - destruct (f x) as [y|e'] eqn:Hx; simpl.
    + destruct (for_each f l) as [ys|e''] eqn:Hl; simpl.
      * split; [done|]. intros (l1 & x' & l2 & Heq & Hok & Hx').
        destruct l1 as [|x1 l1]; simplify_eq/=; [congruence|].
        destruct IH as [_ IH]. discriminate IH.
        exists l1, x', l2. split_and!; [done| |done].
        intros z Hz. apply Hok. by right.
      * split.
        -- intros Heq. apply IH in Heq as (l1 & x' & l2 & -> & Hok & Hx').
           exists (x :: l1), x', l2. split_and!; [done| |done].
           intros z [->|Hz]%elem_of_cons; eauto.
        -- intros (l1 & x' & l2 & Heq & Hok & Hx').
           destruct l1 as [|x1 l1]; simplify_eq/=; [congruence|].
           apply IH. exists l1, x', l2. split_and!; [done| |done].
           intros z Hz. apply Hok. by right.
    + split.
      * intros [= ->]. exists [], x, l. split_and!; [done| |done].
        intros y Hy. by apply elem_of_nil in Hy.
      * intros (l1 & x' & l2 & Heq & Hok & Hx').
        destruct l1 as [|x1 l1]; simplify_eq/=; [congruence|].
        destruct (Hok x1) as [z Hz]; [left|]. congruence.
Qed.

End comprehensions.

Section batch_iterator.

Context {R : Type}.
Variable shuffled : list nat → list nat.
Implicit Types (value first : list R) (dataset rest : list (string * list R)).

Lemma rows_at_window value idx bs :
  idx + bs ≤ length value →
  rows_at value (seq idx bs) = Ok (slice idx (idx + bs) value).
Proof.
  unfold slice, rows_at. replace (idx + bs - idx) with bs by lia.
  revert idx. induction bs as [|bs IH]; intros idx Hlen; simpl.
  - by rewrite take_0.
  - destruct (lookup_lt_is_Some_2 value idx) as [x Hx]; [lia|].
    assert (index value idx = Ok x) as ->.
    { unfold index. by rewrite Hx. }
    simpl. rewrite IH by lia. simpl. by rewrite (drop_S _ x idx).
Qed.

Lemma seq_window n idx bs :
  idx + bs ≤ n → slice idx (idx + bs) (seq 0 n) = seq idx bs.
Proof.
  intros Hle. unfold slice. replace (idx + bs - idx) with bs by lia.
  rewrite drop_seq, take_seq. simpl. f_equal. lia.
Qed.

Lemma div_window n bs idx : 0 < bs → idx < n / bs → idx + bs ≤ n.
Proof.
  intros Hbs Hidx. pose proof (Nat.Div0.mul_div_le n bs). nia.
Qed.

Lemma yield_batches_all dataset l_inds bs idxs
    (g : nat → list (string * list R)) :
  (∀ idx, idx ∈ idxs → batch_at dataset l_inds bs idx = Ok (g idx)) →
  yield_batches dataset l_inds bs idxs = (g <$> idxs, StopIteration).
Proof.
  induction idxs as [|idx idxs IH]; intros Hg; simpl; [done|].
  rewrite Hg by left. rewrite IH; [done|].
  intros i Hi. apply Hg. by right.
Qed.

(** X10: without shuffling, and with arrays that have at least as many
    rows as the first one, the iterator yields one batch for every index
    below the number of samples divided by the batch size and then stops;
    batch number [idx] holds, under every key, the rows [idx] to
    [idx + batch_size - 1] of the array: the window moves on by one row
    from a batch to the next. Every array of a batch has [batch_size]
    rows. *)
Theorem batches_without_shuffle bs key first rest dataset :
  dataset = (key, first) :: rest →
  0 < bs →
  Forall (λ kv, length first ≤ length kv.2) rest →
  batch_iterator_from_dataset shuffled (Some bs) dataset false
  = ((λ idx, (λ kv, (kv.1, slice idx (idx + bs) kv.2)) <$> dataset)
       <$> seq 0 (length first / bs),
     StopIteration)
  ∧ ∀ idx k value,
      idx < length first / bs → (k, value) ∈ dataset →
      length (slice idx (idx + bs) value) = bs.
Proof.
  intros -> Hbs Hall.
  assert (Hlen : ∀ k value, (k, value) ∈ (key, first) :: rest →
                            length first ≤ length value).
  { intros k value [[= -> ->]|Hin]%elem_of_cons; [done|].
    rewrite Forall_forall in Hall. by apply (Hall (k, value)). }
  split.
  - unfold batch_iterator_from_dataset.
    destruct bs as [|bs]; [lia|]. apply yield_batches_all.
    intros idx [_ Hidx]%elem_of_seq. simpl in Hidx.
    pose proof (div_window _ _ _ Hbs Hidx) as Hw.
    unfold batch_at. rewrite seq_window by done.
    apply for_each_fmap. intros [k value] Hin. cbn [fst snd].
    rewrite rows_at_window; [done|]. specialize (Hlen _ _ Hin). lia.
  - intros idx k value Hidx Hin.
    pose proof (div_window _ _ _ Hbs Hidx) as Hw. specialize (Hlen _ _ Hin).
    unfold slice. rewrite length_take, length_drop. lia.
Qed.

Lemma yield_batches_exists dataset l_inds bs idxs :
  (∀ idx, idx ∈ idxs → ∃ b, batch_at dataset l_inds bs idx = Ok b) →
  ∃ batches,
    yield_batches dataset l_inds bs idxs = (batches, StopIteration)
    ∧ Forall2 (λ idx b, batch_at dataset l_inds bs idx = Ok b) idxs batches.
Proof.
  induction idxs as [|idx idxs IH]; intros Hb; simpl.
  - exists []. split; [done | constructor].
  - destruct (Hb idx) as [b Hbatch]; [left|]. rewrite Hbatch.
    destruct IH as (batches & -> & HF).
    { intros i Hi. apply Hb. by right. }
    exists (b :: batches). split; [done|]. by constructor.
Qed.

(** X11: with shuffling by any permutation of the sample indices, and
    arrays that have at least as many rows as the first one, the iterator
    again yields the number of samples divided by the batch size batches
    and stops. Batch number [idx] is read through the window
    [idx : idx + batch_size] of the shuffled indices: [batch_size]
    different sample indices, the same ones for every key, and under each
    key the rows of the array at those indices in that order. *)
Theorem batches_with_shuffle bs key first rest dataset :
  (∀ l, shuffled l ≡ₚ l) →
  dataset = (key, first) :: rest →
  0 < bs →
  Forall (λ kv, length first ≤ length kv.2) rest →
  ∃ batches,
    batch_iterator_from_dataset shuffled (Some bs) dataset true
    = (batches, StopIteration)
    ∧ length batches = length first / bs
    ∧ ∀ idx b,
        batches !! idx = Some b →
        let window :=
          slice idx (idx + bs) (shuffled (seq 0 (length first))) in
        length window = bs
        ∧ NoDup window
        ∧ Forall2 (λ kv kr,
                     kr.1 = kv.1
                     ∧ Forall2 (λ i r, kv.2 !! i = Some r) window kr.2)
                  dataset b.
Proof.
  intros Hperm -> Hbs Hall.
  set (n := length first). set (sh := shuffled (seq 0 n)).
  assert (Hsh : sh ≡ₚ seq 0 n) by apply Hperm.
  assert (Hshlen : length sh = n).
  { rewrite Hsh. apply length_seq. }
  assert (Hlen : ∀ k value, (k, value) ∈ (key, first) :: rest →
                            n ≤ length value).
  { intros k value [[= -> ->]|Hin]%elem_of_cons; [done|].
    rewrite Forall_forall in Hall. by apply (Hall (k, value)). }
  assert (Hwin : ∀ idx i, i ∈ slice idx (idx + bs) sh → i < n).
  { intros idx i Hi. unfold slice in Hi.
    apply subseteq_take, subseteq_drop in Hi. rewrite Hsh in Hi.
    apply elem_of_seq in Hi. lia. }
  assert (Hbatch : ∀ idx, ∃ b,
            batch_at ((key, first) :: rest) sh bs idx = Ok b).
  { intros idx. unfold batch_at. apply for_each_exists.
    intros [k value] Hin. simpl.
    destruct (for_each_exists (λ i, index value i)
                (slice idx (idx + bs) sh)) as [rows Hrows].
    - intros i Hi%Hwin. specialize (Hlen _ _ Hin).
      destruct (lookup_lt_is_Some_2 value i) as [r Hr]; [lia|].
      exists r. unfold index. by rewrite Hr.
    - unfold rows_at. rewrite Hrows. simpl. eauto. }
  destruct (yield_batches_exists ((key, first) :: rest) sh bs
              (seq 0 (n / bs))) as (batches & Hy & HF).
  { intros idx _. apply Hbatch. }
  exists batches. split_and!.
  - unfold batch_iterator_from_dataset. destruct bs as [|bs]; [lia|]. exact Hy.
  - apply Forall2_length in HF. by rewrite length_seq in HF.
  - intros idx b Hb. simpl.
    destruct (Forall2_lookup_r _ _ _ _ _ HF Hb) as (idx' & Hidx' & Hbat).
    apply lookup_seq in Hidx' as [-> Hidx]. simpl in *.
    pose proof (div_window _ _ _ Hbs Hidx) as Hw.
    split_and!.
    + unfold slice. rewrite length_take, length_drop. lia.
    + unfold slice. eapply sublist_NoDup; [|apply sublist_take].
      eapply sublist_NoDup; [|apply sublist_drop].
      rewrite Hsh. apply NoDup_seq.
    + unfold batch_at in Hbat. apply for_each_Forall2 in Hbat.
      eapply Forall2_impl; [exact Hbat|].
      intros [k value] [k' rows] Hkv. simpl in *.
      unfold rows_at in Hkv.
      destruct (for_each (λ i, index value i) (slice idx (idx + bs) sh))
        as [rows'|] eqn:Hrows; simplify_eq/=.
      split; [done|]. apply for_each_Forall2 in Hrows.
      eapply Forall2_impl; [exact Hrows|].
      intros i r. unfold index. by destruct (value !! i); intros [= ->].
Qed.

(** X12: what the iterator does before any batch. An empty dataset is
    an IndexError, a batch size of None a TypeError, a batch size of 0 a
    ZeroDivisionError; with fewer samples than the batch size the iterator
    yields nothing and stops without an error. *)
Theorem batch_iterator_edges (shuffle : bool) :
  (∀ batch_size,
     batch_iterator_from_dataset (R:=R) shuffled batch_size [] shuffle
     = ([], Raised IndexError))
  ∧ (∀ key first rest,
       batch_iterator_from_dataset shuffled None ((key, first) :: rest) shuffle
       = ([], Raised TypeError))
  ∧ (∀ key first rest,
       batch_iterator_from_dataset shuffled (Some 0) ((key, first) :: rest)
         shuffle
       = ([], RaisedZeroDivisionError))
  ∧ (∀ bs key first rest,
       length first < bs →
       batch_iterator_from_dataset shuffled (Some bs) ((key, first) :: rest)
         shuffle
       = ([], StopIteration)).
Proof.
  split_and!; try done.
  intros bs key first rest Hlt. unfold batch_iterator_from_dataset.
  destruct bs as [|bs]; [lia|]. by rewrite Nat.div_small.
Qed.

Lemma rows_at_Raise value inds e : rows_at value inds = Raise e → e = IndexError.
Proof.
  unfold rows_at. intros (l1 & i & l2 & _ & _ & Hi)%for_each_Raise.
  unfold index in Hi. destruct (value !! i); congruence.
Qed.

Lemma rows_at_Ok_length value inds rows :
  NoDup inds → rows_at value inds = Ok rows → length inds ≤ length value.
Proof.
  intros Hnd Hrows%for_each_Forall2.
  trans (length (seq 0 (length value))); [|by rewrite length_seq].
  apply submseteq_length, NoDup_submseteq; [done|].
  intros i Hi. apply elem_of_seq.
  apply list_elem_of_lookup in Hi as [j Hj].
  destruct (Forall2_lookup_l _ _ _ _ _ Hrows Hj) as (r & _ & Hr).
  unfold index in Hr. destruct (value !! i) eqn:Hv; [|done].
  apply lookup_lt_Some in Hv. lia.
Qed.

(** X13: an array with fewer rows than the batch size is found out at the
    first batch: the iterator yields nothing and raises an IndexError,
    with or without shuffling. *)
Theorem short_array_raises (shuffle : bool) bs key first rest k value :
  (∀ l, shuffled l ≡ₚ l) →
  0 < bs →
  bs ≤ length first →
  (k, value) ∈ rest →
  length value < bs →
  batch_iterator_from_dataset shuffled (Some bs) ((key, first) :: rest)
    shuffle
  = ([], Raised IndexError).
Proof.
  intros Hperm Hbs Hn Hin Hshort. unfold batch_iterator_from_dataset.
  set (n := length first).
  set (l_inds := if shuffle then shuffled (seq 0 n) else seq 0 n).
  assert (Hl : l_inds ≡ₚ seq 0 n).
  { unfold l_inds. destruct shuffle; [apply Hperm | done]. }
  destruct bs as [|bs]; [lia|].
  destruct (n / S bs) as [|q] eqn:Hq.
  { apply Nat.div_small_iff in Hq; lia. }
  simpl.
  set (w := slice 0 (0 + S bs) l_inds).
  assert (Hwlen : length w = S bs).
  { unfold w, slice. rewrite length_take, length_drop, Hl, length_seq. lia. }
  assert (Hwnd : NoDup w).
  { unfold w, slice. eapply sublist_NoDup; [|apply sublist_take].
    eapply sublist_NoDup; [|apply sublist_drop].
    rewrite Hl. apply NoDup_seq. }
  destruct (batch_at ((key, first) :: rest) l_inds (S bs) 0) as [b|e] eqn:Hb.
  - exfalso. unfold batch_at in Hb. apply for_each_Forall2 in Hb.
    assert (Hin' : (k, value) ∈ (key, first) :: rest) by by right.
    apply list_elem_of_lookup in Hin' as [j Hj].
    destruct (Forall2_lookup_l _ _ _ _ _ Hb Hj) as (kr & _ & Hkr).
    cbn [fst snd] in Hkr. fold w in Hkr.
    destruct (rows_at value w) as [rows|] eqn:Hrows; [|done].
    apply rows_at_Ok_length in Hrows; [lia|done].
  - unfold batch_at in Hb.
    apply for_each_Raise in Hb as (l1 & [k' v'] & l2 & _ & _ & Hx).
    cbn [fst snd] in Hx.
    destruct (rows_at v' (slice 0 (0 + S bs) l_inds)) as [rows|e'] eqn:Hrows;
      simplify_eq/=.
    by apply rows_at_Raise in Hrows as ->.
Qed.

End batch_iterator.

Section metafiles.

Variable int : string → result Z.

Lemma string_app_assoc (a b c : string) : (a +:+ b) +:+ c = a +:+ b +:+ c.
Proof.
  induction a as [|x a IH]; [done|].
  change ((String x a +:+ b) +:+ c) with (String x ((a +:+ b) +:+ c)).
  by rewrite IH.
Qed.

Lemma split_sep_cons (sep : Ascii.ascii) (s : string) :
  ∃ w ws, split sep s = w :: ws.
Proof.
  destruct s as [|c s]; simpl; [eauto|].
  destruct (decide (c = sep)); [eauto|].
  destruct (split sep s); eauto.
Qed.

Lemma join_split_sep (sep : Ascii.ascii) (s : string) :
  join (String sep "") (split sep s) = s.
Proof.
  induction s as [|c s IH]; simpl; [done|].
  destruct (split_sep_cons sep s) as (w & ws & Hs).
  rewrite Hs in *. destruct (decide (c = sep)) as [->|Hne].
  - change (join (String sep "") ("" :: w :: ws))
      with (String sep (join (String sep "") (w :: ws))).
    by rewrite IH.
  - destruct ws as [|w' ws]; [simpl in *; by rewrite IH|].
    change (join (String sep "") (String c w :: w' :: ws))
      with (String c (join (String sep "") (w :: w' :: ws))).
    by rewrite IH.
Qed.

Lemma join_snoc (sep : string) (init : list string) (w : string) :
  init ≠ [] →
  join sep (init ++ [w]) = join sep init +:+ sep +:+ w.
Proof.
  induction init as [|x init IH]; [done|]. intros _.
  destruct init as [|y init]; [done|].
  change (join sep ((x :: y :: init) ++ [w]))
    with (x +:+ sep +:+ join sep ((y :: init) ++ [w])).
  rewrite IH by done.
  change (join sep (x :: y :: init)) with (x +:+ sep +:+ join sep (y :: init)).
  by rewrite !string_app_assoc.
Qed.

Lemma str_take_app (x t : string) : str_take (String.length x) (x +:+ t) = x.
Proof.
  induction x as [|c x IH]; [by destruct t|].
  change (String c x +:+ t) with (String c (x +:+ t)). simpl. by rewrite IH.
Qed.

Lemma drop_end_app (x t : string) : drop_end (String.length t) (x +:+ t) = x.
Proof.
  unfold drop_end. rewrite string_length_app.
  replace (String.length x + String.length t - String.length t)
    with (String.length x) by lia.
  apply str_take_app.
Qed.

(** A name that ends in the part [meta] is [meta] itself or ends in
    [.meta]. *)
Lemma is_meta_shape (file : string) :
  is_meta file → file = "meta" ∨ file = drop_end 5 file +:+ ".meta".
Proof.
  unfold is_meta. intros [init Hinit]%last_Some.
  pose proof (join_split_sep dot file) as Hj. rewrite Hinit in Hj.
  destruct init as [|x init]; [by left|]. right.
  rewrite join_snoc in Hj by done.
  change (String dot "" +:+ "meta") with ".meta" in Hj.
  rewrite <- Hj at 1.
  by rewrite <- Hj, (drop_end_app _ ".meta").
Qed.

Lemma last_item_split (sep : Ascii.ascii) (s : string) :
  last_item (split sep s) = match last (split sep s) with
                            | Some w => Ok w
                            | None => Ok ""
                            end
  ∧ is_Some (last (split sep s)).
Proof.
  unfold last_item. destruct (split_sep_cons sep s) as (w & ws & Hs).
  rewrite Hs. destruct (last (w :: ws)) eqn:Hl; [eauto|].
  by apply last_None in Hl.
Qed.

Lemma meta_prefixes_Ok (listing : list string) :
  meta_prefixes listing = Ok (drop_end 5 <$> filter is_meta listing).
Proof.
  induction listing as [|file listing IH]; simpl; [done|].
  destruct (last_item_split dot file) as [-> [seg Hseg]]. rewrite Hseg.
  simpl. rewrite IH. simpl. f_equal. rewrite filter_cons.
  destruct (decide (is_meta file)) as [Hm|Hm]; unfold is_meta in Hm;
    rewrite Hseg in Hm.
  - injection Hm as ->. by destruct (decide ("meta" = "meta")).
  - destruct (decide ("meta" = seg)) as [<-|Hne]; done.
Qed.

Lemma filter_fmap_split {A B} (P : A → Prop) `{∀ x, Decision (P x)}
    (g : A → B) (l : list A) a1 y a2 :
  g <$> filter P l = a1 ++ y :: a2 →
  ∃ l1 x l2, l = l1 ++ x :: l2 ∧ P x ∧ g x = y
             ∧ g <$> filter P l1 = a1 ∧ g <$> filter P l2 = a2.
Proof.
  revert a1. induction l as [|x l IH]; intros a1 Heq.
  - by destruct a1.
  - rewrite filter_cons in Heq. destruct (decide (P x)) as [HP|HP].
    + destruct a1 as [|z a1]; simplify_eq/=.
      * exists [], x, l. by rewrite filter_nil.
      * destruct (IH _ H1) as (l1 & x' & l2 & -> & HP' & <- & <- & <-).
        exists (x :: l1), x', l2. rewrite filter_cons, decide_True by done.
        done.
    + destruct (IH _ Heq) as (l1 & x' & l2 & -> & HP' & <- & <- & <-).
      exists (x :: l1), x', l2. rewrite filter_cons, decide_False by done.
      done.
Qed.

(** [max] returns the first item whose key is the largest. *)
Lemma max_from_spec (best : string * Z) (rest : list (string * Z)) :
  ∃ pre kx post,
    best :: rest = pre ++ (max_from best rest, kx) :: post
    ∧ Forall (λ y, (y.2 < kx)%Z) pre
    ∧ Forall (λ y, (y.2 ≤ kx)%Z) post.
Proof.
  revert best. induction rest as [|[x kx0] rest IH]; intros [b kb]; simpl.
  - exists [], kb, []. by split_and!.
  - destruct (decide (kb < kx0)%Z) as [Hlt|Hge].
    + destruct (IH (x, kx0)) as (pre & kx & post & Heq & Hpre & Hpost).
      exists ((b, kb) :: pre), kx, post. split_and!; [by rewrite Heq| |done].
      constructor; [|done]. simpl.
      destruct pre as [|p pre].
      * injection Heq as Hx Hk Hrest. lia.
      * injection Heq as Hp Hrest. subst p.
        apply Forall_cons in Hpre as [Hp _]. simpl in Hp. lia.
    + destruct (IH (b, kb)) as (pre & kx & post & Heq & Hpre & Hpost).
      destruct pre as [|p pre].
      * injection Heq as Hb Hk Hrest. subst kx post.
        exists [], kb, ((x, kx0) :: rest).
        split_and!; [by rewrite <- Hb|done|].
        constructor; [simpl; lia|done].
      * injection Heq as Hp Hrest. subst p.
        apply Forall_cons in Hpre as [Hp Hpre]. simpl in Hp.
        exists ((b, kb) :: (x, kx0) :: pre), kx, post.
        split_and!; [simpl; by rewrite <- Hrest| |done].
        constructor; [done|]. constructor; [simpl; lia|done].
Qed.

Lemma keyed_Forall2 (items : list string) (keyed : list (string * Z)) :
  for_each (λ f, k ← step_of int f ; Ok (f, k)) items = Ok keyed
  ↔ Forall2 (λ f fk, fk.1 = f ∧ step_of int f = Ok fk.2) items keyed.
Proof.
  rewrite for_each_Forall2.
  split; intros HF; (eapply Forall2_impl; [exact HF|]); intros f [f' k];
    simpl; destruct (step_of int f) as [k'|]; simpl.
  - by intros [= -> ->].
  - done.
  - by intros [-> [= ->]].
  - by intros [_ ?].
Qed.

Lemma step_of_meta_prefix (l : list string) (P : list string)
    (keyed : list (string * Z)) g :
  drop_end 5 <$> filter is_meta l = P →
  Forall2 (λ f fk, fk.1 = f ∧ step_of int f = Ok fk.2) P keyed →
  g ∈ l → is_meta g →
  ∃ fk, fk ∈ keyed ∧ step_of int (drop_end 5 g) = Ok fk.2.
Proof.
  intros <- HF Hg Hm.
  assert (Hin : drop_end 5 g ∈ drop_end 5 <$> filter is_meta l).
  { apply list_elem_of_fmap. exists g. split; [done|].
    by apply list_elem_of_filter. }
  apply list_elem_of_lookup in Hin as [j Hj].
  destruct (Forall2_lookup_l _ _ _ _ _ HF Hj) as (fk & Hfk & _ & Hstep).
  exists fk. split; [|done]. by eapply list_elem_of_lookup_2.
Qed.

Lemma get_latest_Ok (listing : list string) (f : string) :
  get_latest_metafile_in_rslt_dir int listing = Ok f →
  ∃ pre file post kf,
    listing = pre ++ file :: post
    ∧ is_meta file
    ∧ f = drop_end 5 file +:+ ".meta"
    ∧ step_of int (drop_end 5 file) = Ok kf
    ∧ (∀ g, g ∈ pre → is_meta g →
         ∃ k, step_of int (drop_end 5 g) = Ok k ∧ (k < kf)%Z)
    ∧ (∀ g, g ∈ post → is_meta g →
         ∃ k, step_of int (drop_end 5 g) = Ok k ∧ (k ≤ kf)%Z).
Proof.
  unfold get_latest_metafile_in_rslt_dir. rewrite meta_prefixes_Ok. simpl.
  unfold max_by_key.
  destruct (for_each _ (drop_end 5 <$> filter is_meta listing))
    as [keyed|] eqn:Hk; [|done]. simpl.
  destruct keyed as [|best rest]; [done|]. simpl. intros [= <-].
  destruct (max_from_spec best rest) as (kpre & kf & kpost & Heq & Hpre & Hpost).
  apply keyed_Forall2 in Hk. rewrite Heq in Hk.
  apply Forall2_app_inv_r in Hk as (P1 & P2 & HF1 & HF2 & HP).
  apply Forall2_cons_inv_r in HF2 as (x & P3 & [Hx Hstep] & HF3 & ->).
  simpl in Hx, Hstep. subst x.
  apply filter_fmap_split in HP
    as (pre & file & post & -> & Hm & Hfile & Hpre' & Hpost').
  exists pre, file, post, kf. rewrite Hfile. split_and!; [done..| |].
  - intros g Hg Hgm.
    destruct (step_of_meta_prefix pre _ _ g Hpre' HF1 Hg Hgm)
      as (fk & Hfk & Hs).
    exists fk.2. split; [done|]. rewrite Forall_forall in Hpre. by apply Hpre.
  - intros g Hg Hgm.
    destruct (step_of_meta_prefix post _ _ g Hpost' HF3 Hg Hgm)
      as (fk & Hfk & Hs).
    exists fk.2. split; [done|]. rewrite Forall_forall in Hpost. by apply Hpost.
Qed.

(** X14: the file name returned by [get_latest_metafile_in_rslt_dir] is
    made from a name of the listing whose part after the last dot is
    [meta], by taking its last five characters off and adding [.meta];
    unless that name is the bare [meta], the result is that name
    itself. *)
Theorem latest_metafile_is_listed (listing : list string) (f : string) :
  get_latest_metafile_in_rslt_dir int listing = Ok f →
  ∃ file, file ∈ listing
          ∧ is_meta file
          ∧ f = drop_end 5 file +:+ ".meta"
          ∧ (file ≠ "meta" → f = file).
Proof.
  intros (pre & file & post & kf & -> & Hm & -> & _)%get_latest_Ok.
  exists file. split_and!; [|done..|].
  - apply elem_of_app. right. left.
  - intros Hne. by destruct (is_meta_shape file Hm) as [?|<-].
Qed.

(** X15: the file returned has the largest step number, the number read
    by [int] after the last dash of the name without its last five
    characters, among the meta files of the listing, and it is the first
    of the listing with that number: the meta files before it have a
    smaller one, those after it none larger. *)
Theorem latest_metafile_is_first_maximal (listing : list string) (f : string) :
  get_latest_metafile_in_rslt_dir int listing = Ok f →
  ∃ pre file post kf,
    listing = pre ++ file :: post
    ∧ f = drop_end 5 file +:+ ".meta"
    ∧ step_of int (drop_end 5 file) = Ok kf
    ∧ (∀ g, g ∈ pre → is_meta g →
         ∃ k, step_of int (drop_end 5 g) = Ok k ∧ (k < kf)%Z)
    ∧ (∀ g, g ∈ post → is_meta g →
         ∃ k, step_of int (drop_end 5 g) = Ok k ∧ (k ≤ kf)%Z).
Proof.
  intros (pre & file & post & kf & -> & Hm & -> & Hs & Hpre & Hpost)%get_latest_Ok.
  by exists pre, file, post, kf.
Qed.

(** Once the names are listed there are two ways to raise. *)
Lemma listed_names_raise_iff (listing : list string) (e : exn) :
  get_latest_metafile_in_rslt_dir int listing = Raise e
  ↔ ((∀ file, file ∈ listing → ¬ is_meta file) ∧ e = ValueError)
    ∨ ∃ pre file post,
        listing = pre ++ file :: post
        ∧ is_meta file
        ∧ step_of int (drop_end 5 file) = Raise e
        ∧ ∀ g, g ∈ pre → is_meta g →
            ∃ k, step_of int (drop_end 5 g) = Ok k.
Proof.
  unfold get_latest_metafile_in_rslt_dir. rewrite meta_prefixes_Ok. simpl.
  unfold max_by_key. split.
  - destruct (for_each _ (drop_end 5 <$> filter is_meta listing))
      as [keyed|e'] eqn:Hk; simpl.
    + destruct keyed as [|best rest]; simpl; [|done]. intros [= <-]. left.
      split; [|done]. intros file Hin Hm.
      apply for_each_Forall2, Forall2_nil_inv_r, fmap_nil_inv in Hk.
      assert (Hf : file ∈ filter is_meta listing)
        by by apply list_elem_of_filter.
      rewrite Hk in Hf. by apply elem_of_nil in Hf.
    + intros [= ->]. right.
      apply for_each_Raise in Hk as (P1 & x & P2 & HP & Hok & Hx).
      apply filter_fmap_split in HP
        as (pre & file & post & -> & Hm & <- & <- & _).
      exists pre, file, post. split_and!; [done..| |].
      * destruct (step_of int (drop_end 5 file)); simpl in Hx; congruence.
      * intros g Hg Hgm. destruct (Hok (drop_end 5 g)) as [[g' k] Hz].
        { apply list_elem_of_fmap. exists g. split; [done|].
          by apply list_elem_of_filter. }
        destruct (step_of int (drop_end 5 g)) as [k'|]; [eauto|done].
  - intros [[Hno ->] | (pre & file & post & -> & Hm & Hstep & Hpre)].
    + assert (filter is_meta listing = []) as ->; [|done].
      destruct (filter is_meta listing) as [|x l] eqn:Hf; [done|].
      assert (Hx : x ∈ filter is_meta listing) by (rewrite Hf; left).
      apply list_elem_of_filter in Hx as [Hm Hin]. by destruct (Hno x).
    + assert (for_each (λ f, k ← step_of int f ; Ok (f, k))
                (drop_end 5 <$> filter is_meta (pre ++ file :: post))
              = Raise e) as ->; [|done].
      apply for_each_Raise.
      exists (drop_end 5 <$> filter is_meta pre), (drop_end 5 file),
        (drop_end 5 <$> filter is_meta post).
      split_and!.
      * rewrite filter_app, filter_cons, decide_True by done.
        by rewrite fmap_app, fmap_cons.
      * intros y (g & -> & [Hgm Hg]%list_elem_of_filter)%list_elem_of_fmap.
        destruct (Hpre g Hg Hgm) as [k ->]. simpl. eauto.
      * by rewrite Hstep.
Qed.

Variable listdir : string → result (list string).

(** X16: the method raises in three cases only. When the directory
    cannot be listed, the exception is the one of [os.listdir]. A listing
    without a meta file is a ValueError, from [max] on an empty list.
    Otherwise the exception is the one [int] raises on the step number of
    the first meta file of the listing whose step number it cannot
    read. *)
Theorem latest_metafile_raises_iff (rslt_dir : string) (e : exn) :
  get_latest_metafile_in int listdir rslt_dir = Raise e
  ↔ listdir rslt_dir = Raise e
    ∨ ∃ listing,
        listdir rslt_dir = Ok listing
        ∧ (((∀ file, file ∈ listing → ¬ is_meta file) ∧ e = ValueError)
           ∨ ∃ pre file post,
               listing = pre ++ file :: post
               ∧ is_meta file
               ∧ step_of int (drop_end 5 file) = Raise e
               ∧ ∀ g, g ∈ pre → is_meta g →
                   ∃ k, step_of int (drop_end 5 g) = Ok k).
Proof.
  unfold get_latest_metafile_in.
  destruct (listdir rslt_dir) as [listing|e'] eqn:Hl; simpl.
  - rewrite listed_names_raise_iff. split.
    + intros H. right. by exists listing.
    + intros [[=] | (listing' & [= <-] & H)]. exact H.
  - split.
    + intros [= ->]. by left.
    + intros [[= ->] | (listing & [=] & _)]. done.
Qed.

End metafiles.

Section evaluation.

Context {V Op Out : Type}.
Variable run : list Op → gmap string V → result Out.
Implicit Types (ops_names : gmap string Op) (dataset : list (string * V)).

Lemma opnames_Ok ops_names (l : list string) (opnames : list Op) :
  Forall2 (λ n o, ops_names !! n = Some o) l opnames →
  for_each (λ name, match ops_names !! name with
                    | Some o => Ok o
                    | None => Raise (KeyError name)
                    end) l = Ok opnames.
Proof.
  intros HF. apply for_each_Forall2. eapply Forall2_impl; [exact HF|].
  by intros n o ->.
Qed.

(** X17: once every name is known in [ops_names], [eval] runs the ops on
    a feed dictionary chosen by [key]: without a key, the whole dataset
    renamed by [prepare_dataset], with no check of the prefixes; with one
    of the keys train, valid and test and a dataset whose prefixes are all
    allowed, the entries of that prefix. Any other key is a KeyError for
    that key, and a refused prefix in the dataset is a KeyError whatever
    the key says. A single name passed as a string stands for the list of
    that one name. *)
Theorem eval_feed_by_key ops_names scope (l : list string) opnames dataset :
  Forall2 (λ n o, ops_names !! n = Some o) l opnames →
  eval run ops_names scope (inr l) dataset None
  = run opnames (prepare_dataset scope dataset)
  ∧ (∀ k, allowed k →
       (∀ key, key ∈ dataset.*1 → allowed (prefix_of key)) →
       eval run ops_names scope (inr l) dataset (Some k)
       = run opnames (prepare_dataset scope (entries_of k dataset)))
  ∧ (∀ k, ¬ allowed k →
       (∀ key, key ∈ dataset.*1 → allowed (prefix_of key)) →
       eval run ops_names scope (inr l) dataset (Some k)
       = Raise (KeyError k))
  ∧ (∀ k bad, bad ∈ dataset.*1 → ¬ allowed (prefix_of bad) →
       ∃ key, eval run ops_names scope (inr l) dataset (Some k)
              = Raise (KeyError key)
              ∧ key ∈ dataset.*1 ∧ ¬ allowed (prefix_of key))
  ∧ (∀ name key,
       eval run ops_names scope (inl name) dataset key
       = eval run ops_names scope (inr [name]) dataset key).
Proof.
  intros HF. pose proof (opnames_Ok _ _ _ HF) as Hops.
  split_and!.
  - unfold eval. by rewrite Hops.
  - intros k Hk Hall. unfold eval. rewrite Hops. simpl.
    destruct (fill_Ok scope (Datasets ∅ ∅ ∅) dataset Hall) as [acc Hf].
    destruct (prepare_datasets scope dataset) as [r|e] eqn:Hr.
    2:{ unfold prepare_datasets in Hr. by rewrite Hf in Hr. }
    simpl. by rewrite (prepare_datasets_entries _ _ _ k Hr Hk).
  - intros k Hk Hall. unfold eval. rewrite Hops. simpl.
    destruct (fill_Ok scope (Datasets ∅ ∅ ∅) dataset Hall) as [acc Hf].
    destruct (prepare_datasets scope dataset) as [r|e] eqn:Hr.
    2:{ unfold prepare_datasets in Hr. by rewrite Hf in Hr. }
    simpl. apply prepare_datasets_Ok in Hr as (_ & _ & Hdom & _).
    assert (r !! k = None) as ->; [|done].
    apply not_elem_of_dom. rewrite Hdom. unfold allowed in Hk.
    rewrite !elem_of_union, !elem_of_singleton. tauto.
  - intros k bad Hbad Hnot. unfold eval. rewrite Hops. simpl.
    destruct (prepare_datasets scope dataset) as [r|e] eqn:Hr.
    + apply prepare_datasets_Ok in Hr as (acc & Hf & _).
      destruct Hnot. by eapply fill_allowed.
    + unfold prepare_datasets in Hr.
      destruct (fill scope (Datasets ∅ ∅ ∅) dataset) as [acc|e'] eqn:Hf;
        simplify_eq/=.
      apply fill_Raise in Hf as (key & -> & Hkey & Hn). eauto.
  - done.
Qed.

(** X18: [eval] looks the names up first: the first name that
    [ops_names] does not know is a KeyError for that name, whatever the
    dataset and the key are. *)
Theorem eval_unknown_name ops_names scope (l1 : list string) name l2
    dataset key :
  (∀ n, n ∈ l1 → is_Some (ops_names !! n)) →
  ops_names !! name = None →
  eval run ops_names scope (inr (l1 ++ name :: l2)) dataset key
  = Raise (KeyError name).
Proof.
  intros Hknown Hname. unfold eval.
  assert (for_each (λ name, match ops_names !! name with
                            | Some o => Ok o
                            | None => Raise (KeyError name)
                            end) (l1 ++ name :: l2)
          = Raise (KeyError name)) as ->; [|done].
  apply for_each_Raise. exists l1, name, l2. split_and!; [done| |].
  - intros n [o ->]%Hknown. eauto.
  - by rewrite Hname.
Qed.

End evaluation.

(** ** The further properties at sample inputs *)

Lemma lorenz_keys_NoDup : NoDup lorenz_dataset.*1.
Proof.
  simpl. apply NoDup_cons. split; [|apply NoDup_singleton].
  intros Hin%list_elem_of_singleton. discriminate.
Qed.

Lemma lorenz_prepared :
  prepare_datasets "VIND" lorenz_dataset = Ok lorenz_splits.
Proof. vm_compute. reflexivity. Qed.

Lemma prepare_dataset_renames_witness :
  prepare_dataset "VIND" lorenz_dataset !! "VIND/train_Observation_main:0"
  = Some 1.
Proof.
  destruct (prepare_dataset_renames "VIND" lorenz_dataset lorenz_keys_NoDup)
    as (H & _).
  apply (H "train_Observation" 1). left.
Defined.

Lemma prepare_datasets_by_prefix_witness :
  lorenz_splits !! "train"
  = Some (prepare_dataset "VIND" (entries_of "train" lorenz_dataset)).
Proof.
  destruct (prepare_datasets_by_prefix "VIND" lorenz_dataset lorenz_splits
              lorenz_prepared) as (H & _).
  exact H.
Defined.

Lemma prepare_datasets_sound_witness :
  ∃ k, (k, 2) ∈ lorenz_dataset
       ∧ prefix_of k = "valid"
       ∧ "VIND/Observation_main:0" = "VIND" +:+ "/" +:+ inode_of k +:+ "_main:0".
Proof.
  apply (prepare_datasets_sound "VIND" lorenz_dataset lorenz_splits "valid"
           {["VIND/Observation_main:0" := 2]} "VIND/Observation_main:0" 2
           lorenz_prepared).
  - vm_compute. reflexivity.
  - vm_compute. reflexivity.
Defined.

Lemma extract_dirs_sound_witness :
  ∃ k, (k, 64) ∈ [("enc_units", 64); ("dec_units", 32)]
       ∧ startswith k "enc" = true
       ∧ "units" = inode_of k.
Proof.
  apply (extract_dirs_sound [("enc_units", 64); ("dec_units", 32)] "enc"
           "units" 64).
  vm_compute. reflexivity.
Defined.

Lemma extract_dirs_places_witness :
  extract_dirs [("enc_units", 64); ("dec_units", 32)] "enc" !! "units"
  = Some 64.
Proof.
  destruct (extract_dirs_places [("enc_units", 64); ("dec_units", 32)] "enc"
              [] "enc" "units" 64 [("dec_units", 32)]) as [H _].
  - reflexivity.
  - reflexivity.
  - reflexivity.
  - intros k Hk%list_elem_of_singleton. subst k. discriminate.
  - exact H.
Defined.

Lemma batches_without_shuffle_witness :
  batch_iterator_from_dataset reverse (Some 3) seven_samples false
  = ([ [("x", [10; 11; 12]); ("y", [20; 21; 22])];
       [("x", [11; 12; 13]); ("y", [21; 22; 23])] ],
     StopIteration).
Proof.
  destruct (batches_without_shuffle reverse 3 "x"
              [10; 11; 12; 13; 14; 15; 16]
              [("y", [20; 21; 22; 23; 24; 25; 26])] seven_samples)
    as [H _].
  - reflexivity.
  - lia.
  - constructor; [simpl; lia | constructor].
  - exact H.
Defined.

Lemma batches_with_shuffle_witness :
  ∃ batches,
    batch_iterator_from_dataset reverse (Some 3) seven_samples true
    = (batches, StopIteration)
    ∧ length batches = 2.
Proof.
  destruct (batches_with_shuffle reverse 3 "x"
              [10; 11; 12; 13; 14; 15; 16]
              [("y", [20; 21; 22; 23; 24; 25; 26])] seven_samples)
    as (batches & H & Hlen & _).
  - intros l. apply reverse_Permutation.
  - reflexivity.
  - lia.
  - constructor; [simpl; lia | constructor].
  - exists batches. split; [exact H | exact Hlen].
Defined.

Lemma batch_iterator_edges_witness :
  batch_iterator_from_dataset reverse (Some 5) [("x", [1; 2])] true
  = ([], StopIteration).
Proof.
  destruct (@batch_iterator_edges nat reverse true) as (_ & _ & _ & H).
  apply H. simpl. lia.
Defined.

Lemma short_array_raises_witness :
  batch_iterator_from_dataset reverse (Some 2)
    [("x", [1; 2; 3; 4]); ("y", [5])] false
  = ([], Raised IndexError).
Proof.
  apply (short_array_raises reverse false 2 "x" [1; 2; 3; 4] [("y", [5])]
           "y" [5]).
  - intros l. apply reverse_Permutation.
  - lia.
  - simpl. lia.
  - left.
  - simpl. lia.
Defined.

Lemma result_dir_latest :
  get_latest_metafile_in_rslt_dir digits_int result_dir = Ok "ckpt-200.meta".
Proof. vm_compute. reflexivity. Qed.

Lemma latest_metafile_is_listed_witness :
  ∃ file, file ∈ result_dir
          ∧ is_meta file
          ∧ "ckpt-200.meta" = drop_end 5 file +:+ ".meta"
          ∧ (file ≠ "meta" → "ckpt-200.meta" = file).
Proof.
  exact (latest_metafile_is_listed digits_int result_dir "ckpt-200.meta"
           result_dir_latest).
Defined.

Lemma latest_metafile_is_first_maximal_witness :
  ∃ pre file post kf,
    result_dir = pre ++ file :: post
    ∧ "ckpt-200.meta" = drop_end 5 file +:+ ".meta"
    ∧ step_of digits_int (drop_end 5 file) = Ok kf
    ∧ (∀ g, g ∈ pre → is_meta g →
         ∃ k, step_of digits_int (drop_end 5 g) = Ok k ∧ (k < kf)%Z)
    ∧ (∀ g, g ∈ post → is_meta g →
         ∃ k, step_of digits_int (drop_end 5 g) = Ok k ∧ (k ≤ kf)%Z).
Proof.
  exact (latest_metafile_is_first_maximal digits_int result_dir
           "ckpt-200.meta" result_dir_latest).
Defined.

Lemma eval_feed_by_key_witness :
  eval echo_run {["cost" := 7]} "VIND" (inr ["cost"]) lorenz_dataset None
  = Ok ([7], prepare_dataset "VIND" lorenz_dataset).
Proof.
  destruct (eval_feed_by_key echo_run {["cost" := 7]} "VIND" ["cost"] [7]
              lorenz_dataset) as (H & _).
  - constructor; [reflexivity | constructor].
  - exact H.
Defined.

Lemma eval_unknown_name_witness :
  eval echo_run {["cost" := 7]} "VIND" (inr ["cost"; "loss"]) lorenz_dataset
    (Some "train")
  = Raise (KeyError "loss").
Proof.
  apply (eval_unknown_name echo_run {["cost" := 7]} "VIND" ["cost"] "loss" []).
  - intros n Hn%list_elem_of_singleton. subst n. by eexists.
  - reflexivity.
Defined.
